(** * gain: completion tags, acceptor, consumer worker and load balancer

    A shallow embedding of the event-loop core of the gain socket server:
    the acceptor ([acceptor.go]), the consumer worker
    ([consumer_worker.go]) and the load balancer exercised by
    [load_balancer_internal_test.go].

    Conventions.
    - Go's [uint64] is a [Z] in [0, 2^64); [int] and [int32] are signed [Z].
    - A [*connection] is a key of the connection registry: reading the
      pointer is a lookup, writing through it is an insert at that key.
    - A [net.Addr] is an [option string]; [None] is the nil interface.
    - Logging, user callbacks, socket syscalls and channel signals are
      recorded, in program order, in the worker's [trace]. *)

From stdpp Require Import base numbers list strings gmap fin_maps.
From Stdlib Require Import ZArith Lia Bool.

Local Open Scope Z_scope.

(* ===================================================================== *)
(** ** Machine integers *)
(* ===================================================================== *)

(** [uint64(x)] for an [int] x. *)
Definition uint64 (x : Z) : Z := x mod 2 ^ 64.

(** [int(x)] for a [uint64] x (two's complement reinterpretation). *)
Definition int_of_uint64 (x : Z) : Z := if x <? 2 ^ 63 then x else x - 2 ^ 64.

(** [^x] on [uint64]. *)
Definition not64 (x : Z) : Z := Z.land (Z.lnot x) (Z.ones 64).

(** [syscall.Stderr]. *)
Definition syscall_Stderr : Z := 2.

(* ===================================================================== *)
(** ** Completion tags *)
(* ===================================================================== *)

(** Modelled from the spec: the flag constants [acceptDataFlag],
    [addConnFlag], [closeConnFlag], [writeDataFlag] and [allFlagsMask] are
    declared outside the available sources.  The spec describes a 64-bit tag
    that "packs an operation-kind flag (accept / added-connection / close /
    write-data, mutually exclusive, encoded in high bits) with the low bits
    holding the relevant file descriptor".  The positions of the four flag
    bits and the number of low bits left to the descriptor are kept as
    parameters. *)
Class TagLayout := {
  acceptBit : Z;
  addConnBit : Z;
  closeBit : Z;
  writeBit : Z;
  fdBits : Z
}.

Section Tags.
Context {L : TagLayout}.

Definition acceptDataFlag : Z := Z.shiftl 1 acceptBit.
Definition addConnFlag : Z := Z.shiftl 1 addConnBit.
Definition closeConnFlag : Z := Z.shiftl 1 closeBit.
Definition writeDataFlag : Z := Z.shiftl 1 writeBit.

Definition allFlagsMask : Z :=
  Z.lor (Z.lor acceptDataFlag addConnFlag) (Z.lor closeConnFlag writeDataFlag).

Definition flagBits : list Z := [acceptBit; addConnBit; closeBit; writeBit].

Definition flagSet : list Z :=
  [acceptDataFlag; addConnFlag; closeConnFlag; writeDataFlag].

(** The flags are distinct single bits of a 64-bit word, all above the
    descriptor bits. *)
Definition layout_okb : bool :=
  (0 <=? fdBits)
  && forallb (fun b => (fdBits <=? b) && (b <? 64)) flagBits
  && negb (acceptBit =? addConnBit) && negb (acceptBit =? closeBit)
  && negb (acceptBit =? writeBit) && negb (addConnBit =? closeBit)
  && negb (addConnBit =? writeBit) && negb (closeBit =? writeBit).

Definition layout_ok : Prop := layout_okb = true.

(** A descriptor that fits in the low bits of the tag. *)
Definition fdFits (d : Z) : Prop := 0 <= d < 2 ^ fdBits.

(** [flag | uint64(fd)], the tag written by the submission paths. *)
Definition composeTag (flag fd : Z) : Z := Z.lor flag (uint64 fd).

(** [tag & ^allFlagsMask]. *)
Definition maskFlags (tag : Z) : Z := Z.land tag (not64 allFlagsMask).

(** [tag&flag > 0]. *)
Definition hasFlag (tag flag : Z) : bool := 0 <? Z.land tag flag.

End Tags.

(* ===================================================================== *)
(** ** Errors, ring and connections *)
(* ===================================================================== *)

(** Modelled from the spec: the declaration of the connection states is
    outside the available sources.  The spec names four states ("one of
    accept/read/write/close"); the worker converts the state with
    [int(conn.state)], so it is an integer type, and [connOther] stands for
    any value of that type without a name. *)
Inductive connectionState :=
  | connAccept | connRead | connWrite | connClose
  | connOther (raw : Z).

(** Who owns the connection's buffers: the kernel (an operation is in
    flight) or user code (the event callbacks may touch them). *)
Inductive spaceMode := kernelSpace | userSpace.

Definition netAddr := option string.

Record connection := mkConnection {
  fd : Z;
  state : connectionState;
  localAddr : netAddr;
  remoteAddr : netAddr;
  mode : spaceMode
}.

Inductive error :=
  (* iouring/errors.go *)
  | ErrNotImplemented | ErrNotSupported | ErrTimerExpired
  | ErrInterrupredSyscall | ErrAgain | ErrSQEOverflow
  | ErrorSQEOverflow (overflowValue : Z)
  (* pkg/errors, as used by the worker and the acceptor *)
  | ErrConnectionQueueIsNil
  | ErrConnectionIsMissing
  | ErrorConnectionIsMissing (fd : Z)
  | ErrorAddressNotFound (fd : Z)
  | ErrorUnknownConnectionState (s : connectionState)
  (* the submission queue has no free entry *)
  | ErrSQFull
  (* fmt.Errorf("<msg>: %w", err) *)
  | Wrapped (msg : string) (err : error).

Inductive opcode := OpAccept | OpClose.

Record SubmissionQueueEntry := mkSQE {
  sqeOp : opcode;
  sqeFd : Z;
  sqeUserData : Z
}.

(** Modelled from the spec: the ring primitive is an external collaborator
    ("obtain a submission slot, populate it with an accept/read/write/close
    operation and a 64-bit tag"; obtaining a slot "fails if the ring's
    submission queue is exhausted").  The ring is the list of populated
    entries, oldest first, with the number of entries the queue can hold. *)
Record Ring := mkRing {
  sq : list SubmissionQueueEntry;
  sqEntries : nat
}.

(** [ring.GetSQE()]: [None] when a free entry was handed out. *)
Definition GetSQE (r : Ring) : option error :=
  if (length (sq r) <? sqEntries r)%nat then None else Some ErrSQFull.

(** Populating the entry handed out by [GetSQE]. *)
Definition populate (e : SubmissionQueueEntry) (r : Ring) : Ring :=
  mkRing (sq r ++ [e]) (sqEntries r).

Record CompletionQueueEvent := mkCQE {
  UserData : Z;
  Res : Z
}.

(** Modelled from the spec: [connection.setUserSpace] is absent from the
    sources; it "flips the connection back to user-owned buffers". *)
Definition setUserSpace (c : connection) : connection :=
  mkConnection (fd c) (state c) (localAddr c) (remoteAddr c) userSpace.

Definition setFd (v : Z) (c : connection) : connection :=
  mkConnection v (state c) (localAddr c) (remoteAddr c) (mode c).
Definition setState (v : connectionState) (c : connection) : connection :=
  mkConnection (fd c) v (localAddr c) (remoteAddr c) (mode c).
Definition setLocalAddr (v : netAddr) (c : connection) : connection :=
  mkConnection (fd c) (state c) v (remoteAddr c) (mode c).
Definition setRemoteAddr (v : netAddr) (c : connection) : connection :=
  mkConnection (fd c) (state c) (localAddr c) v (mode c).

(** Modelled from the spec: the connection registry is an external
    collaborator ("register/lookup a connection by descriptor, iterate and
    conditionally close connections, report active-connection count, report
    whether all connections are closed").  It is a finite map from
    descriptor to connection. *)
Definition getFd (m : gmap Z connection) (d : Z) : option connection := m !! d.

(** [connectionManager.get(key, fd)]: lookup by key. *)
Definition get (m : gmap Z connection) (key _fd : Z) : option connection := m !! key.

Definition allClosed (m : gmap Z connection) : bool := bool_decide (m = ∅).

Definition activeConnectionsOf (m : gmap Z connection) (f : connection -> bool) : Z :=
  Z.of_nat (length (filter (fun kc => f kc.2 = true) (map_to_list m))).

(* ===================================================================== *)
(** ** Acceptor (acceptor.go) *)
(* ===================================================================== *)

Record acceptor := mkAcceptor {
  acc_ring : Ring;
  acc_fd : Z;
  acc_connectionManager : gmap Z connection
}.

Section Acceptor.
Context {L : TagLayout}.

Definition addAcceptRequest (a : acceptor) : option error * acceptor :=
  match GetSQE (acc_ring a) with
  | Some err => (Some (Wrapped "error getting SQE" err), a)
  | None =>
      let entry := mkSQE OpAccept (acc_fd a) (Z.lor acceptDataFlag (uint64 (acc_fd a))) in
      (None, mkAcceptor (populate entry (acc_ring a)) (acc_fd a) (acc_connectionManager a))
  end.

Definition addAcceptConnRequest (a : acceptor) : option error * acceptor :=
  match addAcceptRequest a with
  | (Some err, a) => (Some err, a)
  | (None, a) =>
      match getFd (acc_connectionManager a) (acc_fd a) with
      | None => (Some ErrConnectionIsMissing, a)
      | Some conn =>
          (None, mkAcceptor (acc_ring a) (acc_fd a)
                   (<[acc_fd a := setState connAccept conn]> (acc_connectionManager a)))
      end
  end.

End Acceptor.

(* ===================================================================== *)
(** ** Consumer worker (consumer_worker.go) *)
(* ===================================================================== *)

(** What the worker does to the outside world, in program order. *)
Inductive effect :=
  | LogWarn (msg : string)
  | LogError (err : option error) (msg : string)
  | LogErrorFd (d : Z) (msg : string)
  | LogDebugWrite (d : Z) (count : Z)
  | OnAccept (conn : connection)
  | OnWrite (conn : connection) (n : Z)
  | SyscallCloseSocket (d : Z)
  | StartedSignal
  | NotifyFinish.

Record consumerWorker := mkWorker {
  connectionManager : gmap Z connection;
  socketAddresses : gmap Z netAddr;
  (* nil when ring-to-ring messaging is supported *)
  connQueue : option (list Z);
  workerLocalAddr : netAddr;
  ring : Ring;
  shutdownRequested : bool;
  shutdownInProgress : bool;
  trace : list effect
}.

Definition setConns (m : gmap Z connection) (w : consumerWorker) : consumerWorker :=
  mkWorker m (socketAddresses w) (connQueue w) (workerLocalAddr w) (ring w)
           (shutdownRequested w) (shutdownInProgress w) (trace w).
Definition setAddrs (m : gmap Z netAddr) (w : consumerWorker) : consumerWorker :=
  mkWorker (connectionManager w) m (connQueue w) (workerLocalAddr w) (ring w)
           (shutdownRequested w) (shutdownInProgress w) (trace w).
Definition setQueue (q : option (list Z)) (w : consumerWorker) : consumerWorker :=
  mkWorker (connectionManager w) (socketAddresses w) q (workerLocalAddr w) (ring w)
           (shutdownRequested w) (shutdownInProgress w) (trace w).
Definition setRing (r : Ring) (w : consumerWorker) : consumerWorker :=
  mkWorker (connectionManager w) (socketAddresses w) (connQueue w) (workerLocalAddr w) r
           (shutdownRequested w) (shutdownInProgress w) (trace w).
Definition emit (e : effect) (w : consumerWorker) : consumerWorker :=
  mkWorker (connectionManager w) (socketAddresses w) (connQueue w) (workerLocalAddr w) (ring w)
           (shutdownRequested w) (shutdownInProgress w) (trace w ++ [e]).

(** Writing through a [*connection] held under key [k]. *)
Definition storeConn (k : Z) (c : connection) (w : consumerWorker) : consumerWorker :=
  setConns (<[k := c]> (connectionManager w)) w.

(** Methods of [readWriteWorkerImpl] and [connection] whose bodies live
    outside the available sources and on which no property below depends:
    they are parameters.  [onRead] and [addNextRequest] work on the
    connection and the ring and may fail; [onKernelWrite] updates the
    connection's write accounting; [handleAsyncWritesIfEnabled] works on the
    registry and the ring.  What they log or call back themselves is not
    recorded in the trace. *)
Class Collaborators := {
  onRead : CompletionQueueEvent -> connection -> Ring -> option error * connection * Ring;
  addNextRequest : connection -> Ring -> option error * connection * Ring;
  onKernelWrite : Z -> connection -> connection;
  handleAsyncWritesIfEnabled : gmap Z connection -> Ring -> gmap Z connection * Ring
}.

Section Consumer.
Context {L : TagLayout} {C : Collaborators}.

Definition setSocketAddr (d : Z) (addr : netAddr) (w : consumerWorker) : consumerWorker :=
  setAddrs (<[d := addr]> (socketAddresses w)) w.

Definition addConnToQueue (d : Z) (w : consumerWorker) : option error * consumerWorker :=
  match connQueue w with
  | None => (Some ErrConnectionQueueIsNil, w)
  | Some q => (None, setQueue (Some (q ++ [d])) w)
  end.

(** Modelled from the spec: [addCloseConnRequest] is absent from the
    sources.  The worker "issues a close operation" whose completion carries
    the close flag; as for the accept submission, a slot is obtained (which
    fails when the queue is exhausted), populated and tagged, and the
    connection enters the closing state. *)
Definition addCloseConnRequest (k : Z) (conn : connection) (w : consumerWorker)
  : option error * consumerWorker :=
  match GetSQE (ring w) with
  | Some err => (Some (Wrapped "error getting SQE" err), w)
  | None =>
      let entry := mkSQE OpClose (fd conn) (Z.lor closeConnFlag (uint64 (fd conn))) in
      (None, storeConn k (setState connClose conn) (setRing (populate entry (ring w)) w))
  end.

(** Modelled from the spec: [connectionManager.close(callback, fdToSkip)] is
    absent from the sources; the registry lets the worker "iterate and
    conditionally close connections".  Every tracked connection whose
    descriptor is not [fdToSkip] is passed to the callback once; the spec
    does not say what the registry does with the callback's answer, and the
    connection is kept as the callback left it.  The order of the iteration
    is that of [map_to_list]. *)
Definition connectionManager_close
    (callback : Z -> connection -> consumerWorker -> bool * consumerWorker)
    (fdToSkip : Z) (w : consumerWorker) : consumerWorker :=
  fold_left
    (fun w kc => if fd kc.2 =? fdToSkip then w else (callback kc.1 kc.2 w).2)
    (map_to_list (connectionManager w)) w.

(** The callback of [closeAllConns]. *)
Definition closeOne (k : Z) (conn : connection) (w : consumerWorker)
  : bool * consumerWorker :=
  match addCloseConnRequest k conn w with
  | (Some err, w) => (false, emit (LogError (Some err) "Add close() connection request error") w)
  | (None, w) => (true, w)
  end.

Definition closeAllConns (w : consumerWorker) : consumerWorker :=
  let w := emit (LogWarn "Closing connections") w in
  connectionManager_close closeOne (-1) w.

Definition activeConnections (w : consumerWorker) : Z :=
  activeConnectionsOf (connectionManager w) (fun _ => true).

(** Modelled from the spec: [closeConn(conn, syscallClose, err)] is absent
    from the sources.  After it the connection is "destroyed, removed from
    the registry"; with [syscallClose] the socket is force-closed first. *)
Definition closeConn (k : Z) (conn : connection) (syscallClose : bool)
    (err : option error) (w : consumerWorker) : consumerWorker :=
  let w := if syscallClose then emit (SyscallCloseSocket (fd conn)) w else w in
  setConns (delete k (connectionManager w)) w.

(** [if err != nil { errMsg = msg }]. *)
Definition msgIf (err : option error) (msg : string) : string :=
  match err with Some _ => msg | None => "" end.

(** [handleConn(conn, cqe)], with [conn] the connection held under key [k]. *)
Definition handleConn (k : Z) (conn : connection) (cqe : CompletionQueueEvent)
    (w : consumerWorker) : consumerWorker :=
  let '(err, errMsg, conn, w) :=
    match state conn with
    | connRead =>
        let '(err, conn, r) := onRead cqe conn (ring w) in
        let w := storeConn k conn (setRing r w) in
        (err, msgIf err "read error", conn, w)
    | connWrite =>
        let n := Res cqe in
        let conn := onKernelWrite n conn in
        let w := emit (LogDebugWrite (fd conn) (Res cqe)) w in
        let conn := setUserSpace conn in
        let w := emit (OnWrite conn n) w in
        let '(err, conn, r) := addNextRequest conn (ring w) in
        let w := storeConn k conn (setRing r w) in
        (err, msgIf err "add request error", conn, w)
    | connClose =>
        if hasFlag (UserData cqe) closeConnFlag then
          (None, "", conn, closeConn k conn false None w)
        else if hasFlag (UserData cqe) writeDataFlag then
          let n := Res cqe in
          let conn := onKernelWrite n conn in
          let w := emit (LogDebugWrite (fd conn) (Res cqe)) w in
          let conn := setUserSpace conn in
          let w := emit (OnWrite conn n) w in
          (None, "", conn, storeConn k conn w)
        else (None, "", conn, w)
    | _ => (Some (ErrorUnknownConnectionState (state conn)), "", conn, w)
    end in
  match err with
  | Some e =>
      let w := emit (LogError (Some e) errMsg) w in
      closeConn k conn true (Some e) w
  | None => w
  end.

(** Attaching the addresses to a claimed descriptor: the statements shared
    by [getConnsFromQueue] and the added-connection branch of the loop,
    from [conn.fd = fd] up to [eventHandler.OnAccept(conn)]. *)
Definition attachAddrs (d : Z) (conn : connection) (w : consumerWorker)
  : connection * consumerWorker :=
  let conn := setFd d conn in
  let conn := setLocalAddr (workerLocalAddr w) conn in
  let '(conn, w) :=
    match socketAddresses w !! d with
    | Some remote =>
        (setRemoteAddr remote conn, setAddrs (delete d (socketAddresses w)) w)
    | None =>
        (conn, emit (LogError (Some (ErrorAddressNotFound d)) "Get new connection error") w)
    end in
  let conn := setUserSpace conn in
  let w := emit (OnAccept conn) w in
  (conn, w).

(** One turn of the [for] loop of [getConnsFromQueue], after [Dequeue]. *)
Definition claimFromQueue (d : Z) (w : consumerWorker) : consumerWorker :=
  match getFd (connectionManager w) d with
  | None =>
      emit (LogError (Some (ErrorConnectionIsMissing d)) "Get new connection error") w
  | Some conn =>
      let '(conn, w) := attachAddrs d conn w in
      let '(err, conn, r) := addNextRequest conn (ring w) in
      let w := storeConn d conn (setRing r w) in
      match err with
      | Some e => emit (LogError (Some e) "add request error") w
      | None => w
      end
  end.

(** The [for] loop itself, by recursion on the queue's content. *)
Fixpoint drainQueue (q : list Z) (w : consumerWorker) : consumerWorker :=
  match q with
  | [] => w
  | d :: q' => drainQueue q' (claimFromQueue d (setQueue (Some q') w))
  end.

(** [getConnsFromQueue]; [None] is the nil dereference on a missing queue. *)
Definition getConnsFromQueue (w : consumerWorker) : option consumerWorker :=
  match connQueue w with
  | None => None
  | Some q => Some (drainQueue q w)
  end.

Definition handleJobsInQueues (w : consumerWorker) : consumerWorker :=
  let w := match connQueue w with
           | Some q => drainQueue q w
           | None => w
           end in
  let '(m, r) := handleAsyncWritesIfEnabled (connectionManager w) (ring w) in
  setConns m (setRing r w).

(** Modelled from the spec: [needToShutdown] and [markShutdownInProgress]
    are absent from the sources.  "A shutdown predicate is checked once per
    loop iteration.  When true and not already in progress, the worker marks
    itself shutdown in progress". *)
Definition needToShutdown (w : consumerWorker) : bool :=
  shutdownRequested w && negb (shutdownInProgress w).

Definition markShutdownInProgress (w : consumerWorker) : consumerWorker :=
  mkWorker (connectionManager w) (socketAddresses w) (connQueue w) (workerLocalAddr w) (ring w)
           (shutdownRequested w) true (trace w).

(** The hooks installed by [loop]; [onCloseHandler] is [closeAllConns]. *)
Definition prepareHandler (w : consumerWorker) : option error * consumerWorker :=
  (None, emit StartedSignal w).

Definition shutdownHandler (w : consumerWorker) : bool * consumerWorker :=
  if needToShutdown w
  then (true, markShutdownInProgress (closeAllConns w))
  else (true, w).

Definition loopFinisher := handleJobsInQueues.

(** [notifyFinish] signals loop completion to the controller. *)
Definition loopFinishCondition (w : consumerWorker) : bool * consumerWorker :=
  if allClosed (connectionManager w)
  then (true, emit NotifyFinish w)
  else (false, w).

(** The closure handed to [processEvent]. *)
Definition skipUntracked (w : consumerWorker) (cqe : CompletionQueueEvent) : bool :=
  let keyOrFd := maskFlags (UserData cqe) in
  bool_decide (get (connectionManager w) (int_of_uint64 keyOrFd) 0 = None).

(** Modelled from the spec: [processEvent] is absent from the sources.
    "The worker first checks whether the plain (flag-masked) descriptor is
    currently tracked -- if not, the event is for a connection already torn
    down and is dropped." *)
Definition processEvent (cqe : CompletionQueueEvent)
    (skip : CompletionQueueEvent -> bool) : bool := skip cqe.

(** The event callback of [loop] after the [processEvent] screen. *)
Definition dispatchEvent (cqe : CompletionQueueEvent) (w : consumerWorker)
  : option error * consumerWorker :=
  if hasFlag (UserData cqe) addConnFlag then
    let fileDescriptor := Res cqe in
    match getFd (connectionManager w) fileDescriptor with
    | None =>
        let w := emit (LogError (Some (ErrorConnectionIsMissing fileDescriptor))
                         "Get new connection error") w in
        (None, emit (SyscallCloseSocket fileDescriptor) w)
    | Some conn =>
        let '(conn, w) := attachAddrs (Res cqe) conn w in
        let '(err, conn, r) := addNextRequest conn (ring w) in
        (err, storeConn fileDescriptor conn (setRing r w))
    end
  else
    let fileDescriptor := int_of_uint64 (maskFlags (UserData cqe)) in
    if fileDescriptor <? syscall_Stderr then
      (None, emit (LogErrorFd fileDescriptor "Invalid file descriptor") w)
    else
      match getFd (connectionManager w) fileDescriptor with
      | None =>
          let w := emit (LogError (Some (ErrorConnectionIsMissing fileDescriptor))
                           "Get connection error") w in
          (None, emit (SyscallCloseSocket fileDescriptor) w)
      | Some conn => (None, handleConn fileDescriptor conn cqe w)
      end.

(** The event callback of [loop]. *)
Definition eventCallback (cqe : CompletionQueueEvent) (w : consumerWorker)
  : option error * consumerWorker :=
  if processEvent cqe (skipUntracked w) then (None, w) else dispatchEvent cqe w.

End Consumer.

(** *** The hooks as seen by the looper

    [looper.startLoop] lives outside the available sources.  Whatever its
    schedule, it drives the worker only through the hooks installed by
    [loop]; a run of the loop is a sequence of hook invocations. *)
Inductive hook :=
  | HookPrepare
  | HookShutdown
  | HookEvent (cqe : CompletionQueueEvent)
  | HookFinisher
  | HookFinishCondition.

Section Hooks.
Context {L : TagLayout} {C : Collaborators}.

Definition runHook (h : hook) (w : consumerWorker) : consumerWorker :=
  match h with
  | HookPrepare => (prepareHandler w).2
  | HookShutdown => (shutdownHandler w).2
  | HookEvent cqe => (eventCallback cqe w).2
  | HookFinisher => loopFinisher w
  | HookFinishCondition => (loopFinishCondition w).2
  end.

Definition runHooks (hs : list hook) (w : consumerWorker) : consumerWorker :=
  fold_left (fun w h => runHook h w) hs w.

End Hooks.

(** Loop completion has been signalled. *)
Definition finished (w : consumerWorker) : Prop := In NotifyFinish (trace w).

(** [quiet w w']: going from [w] to [w'] signals no loop completion. *)
Definition quiet (w w' : consumerWorker) : Prop := finished w' -> finished w.

(* ===================================================================== *)
(** ** Load balancer *)
(* ===================================================================== *)

Section LoadBalancer.
(** Worker references held by the balancer.  The balancer does not own the
    workers: their active-connection counts are read through
    [activeConns] whenever [next] runs. *)
Context {W : Type}.

(** Modelled from the spec: the round-robin balancer is absent from the
    sources (only its test is available).  "Stateful cursor c initialized to
    0.  Each next call returns pool[c], then sets c = (c+1) mod len(pool)";
    "register(worker) appends a worker to the pool". *)
Record roundRobinLoadBalancer := mkRoundRobin {
  rrWorkers : list W;
  nextWorkerIndex : nat
}.

Definition newRoundRobinLoadBalancer : roundRobinLoadBalancer := mkRoundRobin [] 0.

Definition rrRegister (w : W) (lb : roundRobinLoadBalancer) : roundRobinLoadBalancer :=
  mkRoundRobin (rrWorkers lb ++ [w]) (nextWorkerIndex lb).

(** [next]; indexing an empty pool has no result. *)
Definition rrNext (lb : roundRobinLoadBalancer) : option (W * roundRobinLoadBalancer) :=
  match rrWorkers lb !! nextWorkerIndex lb with
  | Some w =>
      Some (w, mkRoundRobin (rrWorkers lb)
                 ((nextWorkerIndex lb + 1) mod length (rrWorkers lb))%nat)
  | None => None
  end.

(** [n] successive [next] calls: the workers returned, in call order, and
    the balancer afterwards. *)
Fixpoint rrCalls (n : nat) (lb : roundRobinLoadBalancer)
  : option (list W * roundRobinLoadBalancer) :=
  match n with
  | O => Some ([], lb)
  | S n' =>
      match rrNext lb with
      | Some (w, lb') =>
          match rrCalls n' lb' with
          | Some (ws, lb'') => Some (w :: ws, lb'')
          | None => None
          end
      | None => None
      end
  end.

(** Modelled from the spec: the least-connections balancer is absent from
    the sources (only its test is available).  "Stateless beyond the
    registration list.  Each next call performs a full linear scan over the
    pool in registration order, tracking the minimum observed
    active-connection count, and returns the first worker attaining that
    minimum"; the count "is read fresh on every call". *)
Record leastConnectionsLoadBalancer := mkLeastConnections {
  lcWorkers : list W
}.

Definition newLeastConnectionsLoadBalancer : leastConnectionsLoadBalancer :=
  mkLeastConnections [].

Definition lcRegister (w : W) (lb : leastConnectionsLoadBalancer)
  : leastConnectionsLoadBalancer :=
  mkLeastConnections (lcWorkers lb ++ [w]).

(** The scan: [best] attains [minN], the minimum observed so far. *)
Fixpoint lcScan (activeConns : W -> Z) (best : W) (minN : Z) (ws : list W) : W :=
  match ws with
  | [] => best
  | v :: ws' =>
      let n := activeConns v in
      if n <? minN then lcScan activeConns v n ws' else lcScan activeConns best minN ws'
  end.

Definition lcNext (activeConns : W -> Z) (lb : leastConnectionsLoadBalancer) : option W :=
  match lcWorkers lb with
  | [] => None
  | w :: ws => Some (lcScan activeConns w (activeConns w) ws)
  end.

End LoadBalancer.

Arguments roundRobinLoadBalancer : clear implicits.
Arguments leastConnectionsLoadBalancer : clear implicits.

(** *** The test doubles of load_balancer_internal_test.go

    A [testWorker] is its position in the slice returned by
    [createTestWorkers]; the store holds every worker's [conns] field. *)
Definition numberOfTestWorkers : nat := 4.

Definition testStore := list Z.

Definition createTestWorkers : list nat * testStore :=
  (seq 0 numberOfTestWorkers, replicate numberOfTestWorkers 0).

(** [testWorker.activeConnections]. *)
Definition testActiveConnections (st : testStore) (w : nat) : Z := st !!! w.

(** [testWorker.loop]: [w.conns++]. *)
Definition testLoop (w : nat) (st : testStore) : testStore :=
  <[w := st !!! w + 1]> st.

(** [worker := lb.next(nil); worker.loop(0)], [n] times: the workers
    returned, in call order. *)
Fixpoint lcServe (n : nat) (lb : leastConnectionsLoadBalancer nat) (st : testStore)
  : option (list nat) :=
  match n with
  | O => Some []
  | S n' =>
      match lcNext (testActiveConnections st) lb with
      | Some w =>
          match lcServe n' lb (testLoop w st) with
          | Some ws => Some (w :: ws)
          | None => None
          end
      | None => None
      end
  end.

Definition registerAllRR (ws : list nat) : roundRobinLoadBalancer nat :=
  fold_left (fun lb w => rrRegister w lb) ws newRoundRobinLoadBalancer.

Definition registerAllLC (ws : list nat) : leastConnectionsLoadBalancer nat :=
  fold_left (fun lb w => lcRegister w lb) ws newLeastConnectionsLoadBalancer.

(* ===================================================================== *)
(** ** Vocabulary for the claim paths *)
(* ===================================================================== *)

(** The connection as on-accept sees it after a hit in the address map... *)
Definition claimedWith (a : netAddr) (d : Z) (conn : connection) (w : consumerWorker)
  : connection :=
  setUserSpace (setRemoteAddr a (setLocalAddr (workerLocalAddr w) (setFd d conn))).

(** ... and after a miss. *)
Definition claimedWithout (d : Z) (conn : connection) (w : consumerWorker)
  : connection :=
  setUserSpace (setLocalAddr (workerLocalAddr w) (setFd d conn)).

Definition addressNotFound (d : Z) : effect :=
  LogError (Some (ErrorAddressNotFound d)) "Get new connection error".

(** What [getConnsFromQueue] logs when the first request cannot be added. *)
Definition requestErrorLog (err : option error) : list effect :=
  match err with
  | Some e => [LogError (Some e) "add request error"]
  | None => []
  end.

(** [v'] is the worker after descriptor [d] was claimed on [v]: queued and
    taken from the fallback queue by [getConnsFromQueue], or delivered by
    the event callback for the added-connection completion [cqe]. *)
Definition claimedBy {L : TagLayout} {C : Collaborators} (d : Z) (cqe : CompletionQueueEvent)
    (v v' : consumerWorker) : Prop :=
  (connQueue v = Some [] /\ getConnsFromQueue (addConnToQueue d v).2 = Some v') \/
  (processEvent cqe (skipUntracked v) = false /\ v' = (eventCallback cqe v).2).

(** The close operation submitted for a connection, and what
    [closeAllConns] logs when the submission queue has no free entry. *)
Definition closeEntry {L : TagLayout} (conn : connection) : SubmissionQueueEntry :=
  mkSQE OpClose (fd conn) (composeTag closeConnFlag (fd conn)).

Definition closeFailLog : effect :=
  LogError (Some (Wrapped "error getting SQE" ErrSQFull))
           "Add close() connection request error".

(** Free entries of the submission queue. *)
Definition freeEntries (r : Ring) : nat := (sqEntries r - length (sq r))%nat.

(* ===================================================================== *)
(** ** Sample instances *)
(* ===================================================================== *)

(** A layout with the flags in the four top bits and 32 descriptor bits. *)
Definition sampleLayout : TagLayout :=
  {| acceptBit := 63; addConnBit := 62; closeBit := 61; writeBit := 60; fdBits := 32 |}.

(** Collaborators for running the worker on examples: the next request is
    always a read that needs no submission slot, reads succeed and the
    write accounting keeps the connection as it is. *)
Definition sampleCollaborators : Collaborators :=
  {| onRead := fun _ c r => (None, c, r);
     addNextRequest := fun c r =>
       (None, mkConnection (fd c) connRead (localAddr c) (remoteAddr c) kernelSpace, r);
     onKernelWrite := fun _ c => c;
     handleAsyncWritesIfEnabled := fun m r => (m, r) |}.

(** A connection with no address yet and a worker with an empty ring of
    eight entries, no shutdown requested and an empty trace. *)
Definition sampleConn (d : Z) (s : connectionState) : connection :=
  mkConnection d s None None kernelSpace.

Definition sampleWorker (m : gmap Z connection) (addrs : gmap Z netAddr)
    (q : option (list Z)) : consumerWorker :=
  mkWorker m addrs q (Some "127.0.0.1:8080") (mkRing [] 8) false false [].

(* ===================================================================== *)
(** ** Worker construction and observations on runs *)
(* ===================================================================== *)

Record supportedFeatures := mkFeatures {
  ringsMessaging : bool
}.

(** [newConsumerWorker]; [created] is the outcome of [iouring.CreateRing()].
    The index, the configuration, the event handler and the logger do not
    appear in the worker state.  Modelled from the spec: the registry built
    by [newConnectionManager] tracks nothing, and the worker built by
    [newReadWriteWorkerImpl] has no shutdown requested or in progress. *)
Definition newConsumerWorker (created : error + Ring) (localAddr : netAddr)
    (features : supportedFeatures) : error + consumerWorker :=
  match created with
  | inl err => inl (Wrapped "creating ring error" err)
  | inr r =>
      inr (mkWorker ∅ ∅ (if ringsMessaging features then None else Some [])
             localAddr r false false [])
  end.

(** The descriptors handed to on-accept, in trace order. *)
Definition acceptedFds (tr : list effect) : list Z :=
  omap (fun e => match e with OnAccept c => Some (fd c) | _ => None end) tr.

(** The descriptors reported as missing by a claim, in trace order. *)
Definition missingFds (tr : list effect) : list Z :=
  omap (fun e => match e with
                 | LogError (Some (ErrorConnectionIsMissing d)) msg =>
                     if String.eqb msg "Get new connection error" then Some d else None
                 | _ => None
                 end) tr.

(** The warning that opens [closeAllConns], and how often a trace has it. *)
Definition isClosingWarn (e : effect) : bool :=
  match e with
  | LogWarn msg => String.eqb msg "Closing connections"
  | _ => false
  end.

Definition closingWarns (tr : list effect) : nat :=
  length (List.filter isClosingWarn tr).

(** The socket closes asked of the kernel by syscall, in trace order. *)
Definition closedSockets (tr : list effect) : list Z :=
  omap (fun e => match e with SyscallCloseSocket d => Some d | _ => None end) tr.

(** The registry key a completion event is about: the result value for an
    added-connection completion, the flag-masked tag otherwise. *)
Definition affectedKey {L : TagLayout} (cqe : CompletionQueueEvent) : Z :=
  if hasFlag (UserData cqe) addConnFlag then Res cqe
  else int_of_uint64 (maskFlags (UserData cqe)).

(** The completion of a submitted entry: the kernel echoes the tag. *)
Definition completionOf (res : Z) (e : SubmissionQueueEntry) : CompletionQueueEvent :=
  mkCQE (sqeUserData e) res.

(** A close completion for a descriptor that fits the tag and is not one
    of the standard streams. *)
Definition isCloseCompletion {L : TagLayout} (cqe : CompletionQueueEvent) : Prop :=
  exists k, UserData cqe = composeTag closeConnFlag k /\
            fdFits k /\ syscall_Stderr <= k.

Definition isShutdownHook (h : hook) : bool :=
  match h with HookShutdown => true | _ => false end.

(** What every hook but the shutdown hook keeps: address-map entries are
    only ever consumed, the queue neither appears nor disappears, the local
    address and the shutdown flags stay, and the trace grows at its end
    without a closing warning. *)
Record hookFrame (w w' : consumerWorker) : Prop := mkHookFrame {
  frame_addrs : socketAddresses w' ⊆ socketAddresses w;
  frame_queue : connQueue w' = None <-> connQueue w = None;
  frame_local : workerLocalAddr w' = workerLocalAddr w;
  frame_requested : shutdownRequested w' = shutdownRequested w;
  frame_progress : shutdownInProgress w' = shutdownInProgress w;
  frame_trace : exists es, trace w' = trace w ++ es /\ closingWarns es = 0%nat
}.

(* ===================================================================== *)
(** * Properties *)
(* ===================================================================== *)

(** ** Completion tags *)

Section TagFacts.
Context {L : TagLayout}.

Lemma layout_ok_inv :
  layout_ok ->
  0 <= fdBits /\
  (fdBits <= acceptBit < 64) /\ (fdBits <= addConnBit < 64) /\
  (fdBits <= closeBit < 64) /\ (fdBits <= writeBit < 64) /\
  acceptBit <> addConnBit /\ acceptBit <> closeBit /\ acceptBit <> writeBit /\
  addConnBit <> closeBit /\ addConnBit <> writeBit /\ closeBit <> writeBit.
Proof.
  unfold layout_ok, layout_okb, flagBits. cbn [forallb].
  rewrite !andb_true_iff, !negb_true_iff, !Z.eqb_neq, !Z.leb_le, !Z.ltb_lt.
  tauto.
Qed.

Lemma flag_testbit (b n : Z) :
  0 <= b -> Z.testbit (Z.shiftl 1 b) n = (b =? n).
Proof.
  intros Hb. rewrite Z.shiftl_1_l. now apply Z.pow2_bits_eqb.
Qed.

Lemma fd_testbit_high {d n : Z} :
  fdFits d -> fdBits <= n -> Z.testbit d n = false.
Proof.
  intros [Hd0 Hd] Hn.
  destruct (Z.eq_dec d 0) as [->|Hnz]; [apply Z.bits_0|].
  apply Z.bits_above_log2; [lia|].
  assert (0 <= fdBits).
  { destruct (Z.le_gt_cases 0 fdBits) as [|Hneg]; [done|].
    rewrite Z.pow_neg_r in Hd by lia. lia. }
  assert (Z.log2 d < fdBits) by (apply Z.log2_lt_pow2; lia). lia.
Qed.

Lemma not64_testbit (x n : Z) :
  0 <= n -> Z.testbit (not64 x) n = negb (Z.testbit x n) && (n <? 64).
Proof.
  intros Hn. unfold not64.
  rewrite Z.land_spec, Z.lnot_spec, Z.testbit_ones_nonneg by lia. done.
Qed.

Lemma allFlagsMask_testbit (n : Z) :
  layout_ok ->
  Z.testbit allFlagsMask n =
    (acceptBit =? n) || (addConnBit =? n) || ((closeBit =? n) || (writeBit =? n)).
Proof.
  intros HL. pose proof (layout_ok_inv HL) as HI.
  unfold allFlagsMask, acceptDataFlag, addConnFlag, closeConnFlag, writeDataFlag.
  rewrite !Z.lor_spec, !flag_testbit by lia. done.
Qed.

Lemma fdFits_uint64 {d : Z} : layout_ok -> fdFits d -> uint64 d = d.
Proof.
  intros HL [Hd0 Hd]. pose proof (layout_ok_inv HL) as HI.
  unfold uint64. apply Z.mod_small. split; [done|].
  assert (2 ^ fdBits <= 2 ^ 64) by (apply Z.pow_le_mono_r; lia). lia.
Qed.

(** A flag of the set is the bit at one of the four flag positions. *)
Lemma flagSet_inv (f : Z) :
  In f flagSet -> exists b, In b flagBits /\ f = Z.shiftl 1 b.
Proof.
  unfold flagSet, flagBits, acceptDataFlag, addConnFlag, closeConnFlag, writeDataFlag.
  cbn [In]. intros [<-|[<-|[<-|[<-|[]]]]];
    (eexists; split; [|reflexivity]); tauto.
Qed.

Lemma flagBits_range {b : Z} :
  layout_ok -> In b flagBits -> fdBits <= b < 64 /\ 0 <= b.
Proof.
  intros HL Hb. pose proof (layout_ok_inv HL) as HI.
  unfold flagBits in Hb. cbn [In] in Hb. lia.
Qed.

Lemma flagBits_in_mask {b : Z} :
  layout_ok -> In b flagBits -> Z.testbit allFlagsMask b = true.
Proof.
  intros HL Hb. rewrite allFlagsMask_testbit by done.
  unfold flagBits in Hb. cbn [In] in Hb.
  destruct Hb as [<-|[<-|[<-|[<-|[]]]]]; rewrite Z.eqb_refl;
    rewrite ?orb_true_r; done.
Qed.

Lemma mask_testbit_low {n : Z} :
  layout_ok -> n < fdBits -> Z.testbit allFlagsMask n = false.
Proof.
  intros HL Hn. pose proof (layout_ok_inv HL) as HI.
  rewrite allFlagsMask_testbit by done.
  repeat match goal with
         | |- context [?a =? n] => destruct (Z.eqb_spec a n); [lia|]
         end. done.
Qed.

Lemma maskFlags_composeTag (b d : Z) :
  layout_ok -> In b flagBits -> fdFits d ->
  maskFlags (composeTag (Z.shiftl 1 b) d) = d.
Proof.
  intros HL Hb Hd. pose proof (flagBits_range HL Hb) as [Hr Hb0].
  unfold maskFlags, composeTag. rewrite (fdFits_uint64 HL Hd).
  apply Z.bits_inj'. intros n Hn.
  rewrite Z.land_spec, Z.lor_spec, not64_testbit, flag_testbit by lia.
  destruct (Z.lt_ge_cases n fdBits) as [Hlo|Hhi].
  - rewrite (mask_testbit_low HL Hlo).
    destruct (Z.eqb_spec b n); [lia|].
    destruct (Z.ltb_spec n 64); [|lia].
    cbn. now rewrite andb_true_r.
  - rewrite (fd_testbit_high Hd Hhi), orb_false_r.
    destruct (Z.eqb_spec b n) as [<-|]; [|done].
    now rewrite (flagBits_in_mask HL Hb).
Qed.

Lemma land_flag_fd {b d : Z} :
  layout_ok -> In b flagBits -> fdFits d -> Z.land (Z.shiftl 1 b) d = 0.
Proof.
  intros HL Hb Hd. pose proof (flagBits_range HL Hb) as [Hr Hb0].
  apply Z.bits_inj'. intros n Hn.
  rewrite Z.land_spec, Z.bits_0, flag_testbit by lia.
  destruct (Z.eqb_spec b n) as [<-|]; [|done].
  now rewrite (fd_testbit_high Hd) by lia.
Qed.

Lemma land_flag_flag (a b : Z) :
  0 <= a -> 0 <= b -> a <> b -> Z.land (Z.shiftl 1 a) (Z.shiftl 1 b) = 0.
Proof.
  intros Ha Hb Hne. apply Z.bits_inj'. intros n Hn.
  rewrite Z.land_spec, Z.bits_0, !flag_testbit by lia.
  destruct (Z.eqb_spec a n), (Z.eqb_spec b n); try done. lia.
Qed.

Lemma land_flag_self (a : Z) :
  0 <= a -> Z.land (Z.shiftl 1 a) (Z.shiftl 1 a) = 2 ^ a.
Proof. intros Ha. now rewrite Z.land_diag, Z.shiftl_1_l. Qed.

(** Testing a flag on a composed tag: positive for the tag's own flag, zero
    for any flag at another position. *)
Lemma hasFlag_composeTag (a b d : Z) :
  layout_ok -> In a flagBits -> In b flagBits -> fdFits d ->
  hasFlag (composeTag (Z.shiftl 1 a) d) (Z.shiftl 1 b) = bool_decide (a = b).
Proof.
  intros HL Ha Hb Hd.
  pose proof (flagBits_range HL Ha) as [_ Ha0].
  pose proof (flagBits_range HL Hb) as [_ Hb0].
  unfold hasFlag, composeTag. rewrite (fdFits_uint64 HL Hd).
  rewrite Z.land_lor_distr_l, (Z.land_comm d), (land_flag_fd HL Hb Hd), Z.lor_0_r.
  case_bool_decide as Hab.
  - subst b. rewrite land_flag_self by done. apply Z.ltb_lt. lia.
  - now rewrite land_flag_flag.
Qed.

End TagFacts.

(** C1. For every descriptor [d] that fits in the low bits and every flag
    [f] of the flag set (accept, added-connection, close, write-data),
    masking the flag bits off the tag [f | d] gives back exactly [d] (also
    after the conversion to [int]); the bits of [f] do not overlap the bits
    of the descriptor; the tag tests positive for [f]; and for every other
    flag [g] of the set, [f] and [g] share no bit and the tag tests zero
    for [g]. *)
Theorem tag_mask_recovers_descriptor {L : TagLayout} (d f : Z) :
  layout_ok -> fdFits d -> In f flagSet ->
  maskFlags (composeTag f d) = d /\
  int_of_uint64 (maskFlags (composeTag f d)) = d /\
  Z.land f (uint64 d) = 0 /\
  hasFlag (composeTag f d) f = true /\
  (forall g, In g flagSet -> g <> f ->
     Z.land f g = 0 /\ hasFlag (composeTag f d) g = false).
Proof.
  intros HL Hd Hf.
  destruct (flagSet_inv f Hf) as (b & Hb & ->).
  pose proof (flagBits_range HL Hb) as [Hr Hb0].
  assert (Hm : maskFlags (composeTag (Z.shiftl 1 b) d) = d)
    by now apply maskFlags_composeTag.
  split; [done|]. split.
  { rewrite Hm. unfold int_of_uint64. destruct Hd as [Hd0 Hd].
    assert (2 ^ fdBits <= 2 ^ 63) by (apply Z.pow_le_mono_r; lia).
    destruct (Z.ltb_spec d (2 ^ 63)); [done|lia]. }
  split.
  { rewrite (fdFits_uint64 HL Hd). now apply land_flag_fd. }
  split.
  { rewrite hasFlag_composeTag by done. now apply bool_decide_eq_true. }
  intros g Hg Hne.
  destruct (flagSet_inv g Hg) as (c & Hc & ->).
  pose proof (flagBits_range HL Hc) as [_ Hc0].
  assert (b <> c) by congruence.
  split; [now apply land_flag_flag|].
  rewrite hasFlag_composeTag by done. now apply bool_decide_eq_false.
Qed.

Lemma tag_mask_recovers_descriptor_witness :
  @layout_ok sampleLayout /\ @fdFits sampleLayout 7 /\
  In (@closeConnFlag sampleLayout) (@flagSet sampleLayout) /\
  @maskFlags sampleLayout (composeTag (@closeConnFlag sampleLayout) 7) = 7.
Proof.
  assert (H1 : @layout_ok sampleLayout) by reflexivity.
  assert (H2 : @fdFits sampleLayout 7) by (unfold fdFits; simpl; lia).
  assert (H3 : In (@closeConnFlag sampleLayout) (@flagSet sampleLayout))
    by (simpl; tauto).
  split; [exact H1|]. split; [exact H2|]. split; [exact H3|].
  exact (proj1 (@tag_mask_recovers_descriptor sampleLayout 7 _ H1 H2 H3)).
Defined.

(** ** Acceptor *)

(** C10. When [addAcceptConnRequest] returns the connection-missing error,
    no connection is tracked for the listening descriptor, and the accept
    operation, tagged with the accept flag and the listening descriptor, is
    nevertheless the newest entry of the submission queue: the submission
    is not rolled back.  The registry is left as it was. *)
Theorem addAcceptConnRequest_missing_not_rolled_back {L : TagLayout} (a a' : acceptor) :
  addAcceptConnRequest a = (Some ErrConnectionIsMissing, a') ->
  getFd (acc_connectionManager a) (acc_fd a) = None /\
  GetSQE (acc_ring a) = None /\
  sq (acc_ring a') =
    sq (acc_ring a) ++ [mkSQE OpAccept (acc_fd a) (composeTag acceptDataFlag (acc_fd a))] /\
  acc_connectionManager a' = acc_connectionManager a /\
  acc_fd a' = acc_fd a.
Proof.
  unfold addAcceptConnRequest, addAcceptRequest, composeTag.
  destruct (GetSQE (acc_ring a)) as [e|] eqn:Hsqe.
  - intros [=].
  - cbn [acc_connectionManager acc_fd acc_ring].
    destruct (getFd (acc_connectionManager a) (acc_fd a)) as [conn|] eqn:Hget.
    + intros [=].
    + intros [= <-]. cbn. done.
Qed.

Lemma addAcceptConnRequest_missing_not_rolled_back_witness :
  let a := mkAcceptor (mkRing [] 4) 3 ∅ in
  let a' := mkAcceptor
              (mkRing [mkSQE OpAccept 3 (@composeTag (@acceptDataFlag sampleLayout) 3)] 4) 3 ∅ in
  @addAcceptConnRequest sampleLayout a = (Some ErrConnectionIsMissing, a') /\
  sq (acc_ring a') =
    sq (acc_ring a) ++ [mkSQE OpAccept 3 (@composeTag (@acceptDataFlag sampleLayout) 3)].
Proof.
  intros a a'.
  assert (H : @addAcceptConnRequest sampleLayout a = (Some ErrConnectionIsMissing, a'))
    by reflexivity.
  split; [exact H|].
  exact (proj1 (proj2 (proj2
    (@addAcceptConnRequest_missing_not_rolled_back sampleLayout a a' H)))).
Defined.

(** ** Consumer worker: the connection state machine *)

Section HandleConnFacts.
Context {L : TagLayout} {C : Collaborators}.

Lemma handleConn_closing_closeFlag k conn cqe w :
  state conn = connClose ->
  hasFlag (UserData cqe) closeConnFlag = true ->
  handleConn k conn cqe w = closeConn k conn false None w.
Proof. intros Hs Hf. unfold handleConn. now rewrite Hs, Hf. Qed.

Lemma handleConn_closing_writeFlag k conn cqe w :
  state conn = connClose ->
  hasFlag (UserData cqe) closeConnFlag = false ->
  hasFlag (UserData cqe) writeDataFlag = true ->
  handleConn k conn cqe w =
    let c1 := onKernelWrite (Res cqe) conn in
    let c2 := setUserSpace c1 in
    storeConn k c2
      (emit (OnWrite c2 (Res cqe)) (emit (LogDebugWrite (fd c1) (Res cqe)) w)).
Proof. intros Hs Hc Hw. unfold handleConn. now rewrite Hs, Hc, Hw. Qed.

Lemma handleConn_unknown_state k conn cqe w :
  state conn <> connRead -> state conn <> connWrite -> state conn <> connClose ->
  handleConn k conn cqe w =
    let err := ErrorUnknownConnectionState (state conn) in
    closeConn k conn true (Some err) (emit (LogError (Some err) "") w).
Proof.
  intros Hr Hw Hc. unfold handleConn.
  destruct (state conn); done.
Qed.

End HandleConnFacts.

(** C2. A completion for a connection in the closing state is dispatched
    on the flag found on its tag.  When the close flag tests positive the
    connection is removed from the registry, with no socket syscall, no
    callback and no submission.  When the close flag tests zero and the
    write-data flag tests positive, the write accounting is updated, the
    buffers become user-owned, on-write fires with the byte count of the
    completion, the connection stays tracked, and nothing is submitted to
    the ring.  A tag composed of the close flag (of the write-data flag)
    and a descriptor falls in the first (second) case. *)
Theorem closing_completion_dispatch {L : TagLayout} {C : Collaborators}
    (k : Z) (conn : connection) (cqe : CompletionQueueEvent) (w : consumerWorker) :
  state conn = connClose ->
  let w' := handleConn k conn cqe w in
  let c1 := onKernelWrite (Res cqe) conn in
  let c2 := setUserSpace c1 in
  (hasFlag (UserData cqe) closeConnFlag = true ->
     connectionManager w' = delete k (connectionManager w) /\
     connectionManager w' !! k = None /\
     ring w' = ring w /\ trace w' = trace w) /\
  (hasFlag (UserData cqe) closeConnFlag = false ->
   hasFlag (UserData cqe) writeDataFlag = true ->
     connectionManager w' = <[k := c2]> (connectionManager w) /\
     mode c2 = userSpace /\
     trace w' = trace w ++ [LogDebugWrite (fd c1) (Res cqe); OnWrite c2 (Res cqe)] /\
     ring w' = ring w) /\
  (forall d, layout_ok -> fdFits d ->
     (UserData cqe = composeTag closeConnFlag d ->
        hasFlag (UserData cqe) closeConnFlag = true) /\
     (UserData cqe = composeTag writeDataFlag d ->
        hasFlag (UserData cqe) closeConnFlag = false /\
        hasFlag (UserData cqe) writeDataFlag = true)).
Proof.
  intros Hs w' c1 c2. split; [|split].
  - intros Hf. subst w'. rewrite handleConn_closing_closeFlag by done.
    unfold closeConn. cbn. split; [done|]. split; [apply lookup_delete_eq|done].
  - intros Hc Hw. subst w'. rewrite handleConn_closing_writeFlag by done.
    cbn. rewrite <- app_assoc. done.
  - intros d HL Hd.
    assert (Hcl : In closeBit flagBits) by (unfold flagBits; cbn; tauto).
    assert (Hwr : In writeBit flagBits) by (unfold flagBits; cbn; tauto).
    pose proof (layout_ok_inv HL) as HI.
    unfold closeConnFlag, writeDataFlag. split.
    + intros ->. rewrite hasFlag_composeTag by done. now apply bool_decide_eq_true.
    + intros ->. rewrite !hasFlag_composeTag by done. split.
      * apply bool_decide_eq_false. lia.
      * now apply bool_decide_eq_true.
Qed.

Lemma closing_completion_dispatch_witness :
  let conn := sampleConn 5 connClose in
  let w := sampleWorker {[ 5 := conn ]} ∅ None in
  let cqe := mkCQE (@composeTag (@writeDataFlag sampleLayout) 5) 12 in
  state conn = connClose /\
  trace (@handleConn sampleLayout sampleCollaborators 5 conn cqe w) =
    [LogDebugWrite 5 12; OnWrite (setUserSpace conn) 12] /\
  ring (@handleConn sampleLayout sampleCollaborators 5 conn cqe w) = ring w.
Proof.
  intros conn w cqe.
  assert (Hs : state conn = connClose) by reflexivity.
  pose proof (@closing_completion_dispatch sampleLayout sampleCollaborators
                5 conn cqe w Hs) as H.
  cbv zeta in H. destruct H as (_ & Hw & _).
  assert (Hc : @hasFlag (UserData cqe) (@closeConnFlag sampleLayout) = false)
    by reflexivity.
  assert (Hd : @hasFlag (UserData cqe) (@writeDataFlag sampleLayout) = true)
    by reflexivity.
  destruct (Hw Hc Hd) as (_ & _ & Ht & Hr).
  split; [exact Hs|]. split; [exact Ht|exact Hr].
Defined.

(** ** Consumer worker: event dispatch *)

Section DispatchFacts.
Context {L : TagLayout} {C : Collaborators}.

(** The screen lets an event through exactly when its masked descriptor is
    tracked. *)
Lemma processEvent_tracked cqe w :
  processEvent cqe (skipUntracked w) =
    bool_decide (connectionManager w !! int_of_uint64 (maskFlags (UserData cqe)) = None).
Proof. reflexivity. Qed.

Lemma eventCallback_tracked cqe w conn :
  connectionManager w !! int_of_uint64 (maskFlags (UserData cqe)) = Some conn ->
  eventCallback cqe w = dispatchEvent cqe w.
Proof.
  intros Hm. unfold eventCallback. rewrite processEvent_tracked.
  rewrite bool_decide_eq_false_2; [done|]. rewrite Hm. done.
Qed.

Lemma eventCallback_untracked cqe w :
  connectionManager w !! int_of_uint64 (maskFlags (UserData cqe)) = None ->
  eventCallback cqe w = (None, w).
Proof.
  intros Hm. unfold eventCallback. rewrite processEvent_tracked.
  now rewrite bool_decide_eq_true_2.
Qed.

Lemma dispatchEvent_tracked_conn cqe w conn :
  hasFlag (UserData cqe) addConnFlag = false ->
  syscall_Stderr <= int_of_uint64 (maskFlags (UserData cqe)) ->
  getFd (connectionManager w) (int_of_uint64 (maskFlags (UserData cqe))) = Some conn ->
  dispatchEvent cqe w =
    (None, handleConn (int_of_uint64 (maskFlags (UserData cqe))) conn cqe w).
Proof.
  intros Hf Hge Hget. unfold dispatchEvent. rewrite Hf.
  destruct (Z.ltb_spec (int_of_uint64 (maskFlags (UserData cqe))) syscall_Stderr);
    [lia|].
  now rewrite Hget.
Qed.


End DispatchFacts.

(** C8. A completion routed to a tracked connection whose state is none of
    the states the dispatcher handles (read, write, close) makes the worker
    log the unknown-connection-state error and force-close the connection:
    the socket is closed by syscall and the connection leaves the registry.
    The event callback returns no error, so the loop goes on; ring and
    address map are untouched. *)
Theorem unknown_state_force_closed {L : TagLayout} {C : Collaborators}
    (cqe : CompletionQueueEvent) (w : consumerWorker) (conn : connection) :
  let fileDescriptor := int_of_uint64 (maskFlags (UserData cqe)) in
  hasFlag (UserData cqe) addConnFlag = false ->
  syscall_Stderr <= fileDescriptor ->
  getFd (connectionManager w) fileDescriptor = Some conn ->
  state conn <> connRead -> state conn <> connWrite -> state conn <> connClose ->
  let err := ErrorUnknownConnectionState (state conn) in
  exists w',
    eventCallback cqe w = (None, w') /\
    trace w' = trace w ++ [LogError (Some err) ""; SyscallCloseSocket (fd conn)] /\
    connectionManager w' = delete fileDescriptor (connectionManager w) /\
    connectionManager w' !! fileDescriptor = None /\
    ring w' = ring w /\ socketAddresses w' = socketAddresses w.
Proof.
  intros fileDescriptor Hf Hge Hget Hr Hw Hc err.
  exists (handleConn fileDescriptor conn cqe w). split.
  - rewrite (eventCallback_tracked _ _ conn) by exact Hget.
    now apply dispatchEvent_tracked_conn.
  - rewrite handleConn_unknown_state by done.
    unfold closeConn. cbn. rewrite <- app_assoc. cbn.
    split; [done|]. split; [done|]. split; [apply lookup_delete_eq|done].
Qed.

Lemma unknown_state_force_closed_witness :
  let conn := sampleConn 5 connAccept in
  let w := sampleWorker {[ 5 := conn ]} ∅ None in
  let cqe := mkCQE 5 0 in
  exists w',
    @eventCallback sampleLayout sampleCollaborators cqe w = (None, w') /\
    trace w' = [LogError (Some (ErrorUnknownConnectionState connAccept)) "";
                SyscallCloseSocket 5] /\
    connectionManager w' !! 5 = None.
Proof.
  intros conn w cqe.
  assert (H1 : @hasFlag (UserData cqe) (@addConnFlag sampleLayout) = false)
    by reflexivity.
  assert (H2 : syscall_Stderr <= int_of_uint64 (@maskFlags sampleLayout (UserData cqe)))
    by (vm_compute; discriminate).
  assert (H3 : getFd (connectionManager w)
                 (int_of_uint64 (@maskFlags sampleLayout (UserData cqe))) = Some conn)
    by reflexivity.
  assert (H4 : state conn <> connRead) by discriminate.
  assert (H5 : state conn <> connWrite) by discriminate.
  assert (H6 : state conn <> connClose) by discriminate.
  destruct (@unknown_state_force_closed sampleLayout sampleCollaborators
              cqe w conn H1 H2 H3 H4 H5 H6) as (w' & He & Ht & _ & Hm & _).
  exists w'. split; [exact He|]. split; [exact Ht|exact Hm].
Defined.




(** ** Consumer worker: claiming a handed-off descriptor *)

Section ClaimFacts.
Context {L : TagLayout} {C : Collaborators}.

Lemma attachAddrs_hit d conn a w :
  socketAddresses w !! d = Some a ->
  attachAddrs d conn w =
    (claimedWith a d conn w,
     emit (OnAccept (claimedWith a d conn w)) (setAddrs (delete d (socketAddresses w)) w)).
Proof. intros Ha. unfold attachAddrs. now rewrite Ha. Qed.

Lemma attachAddrs_miss d conn w :
  socketAddresses w !! d = None ->
  attachAddrs d conn w =
    (claimedWithout d conn w,
     emit (OnAccept (claimedWithout d conn w)) (emit (addressNotFound d) w)).
Proof. intros Ha. unfold attachAddrs. now rewrite Ha. Qed.

Lemma claimFromQueue_hit d conn a w :
  getFd (connectionManager w) d = Some conn ->
  socketAddresses w !! d = Some a ->
  let c1 := claimedWith a d conn w in
  let res := addNextRequest c1 (ring w) in
  let w' := claimFromQueue d w in
  socketAddresses w' = delete d (socketAddresses w) /\
  connectionManager w' = <[d := res.1.2]> (connectionManager w) /\
  ring w' = res.2 /\
  trace w' = trace w ++ OnAccept c1 :: requestErrorLog res.1.1.
Proof.
  intros Hg Ha c1 res w'. subst w' res. unfold claimFromQueue.
  rewrite Hg, (attachAddrs_hit _ _ _ _ Ha). fold c1. cbn [ring emit setAddrs].
  destruct (addNextRequest c1 (ring w)) as [[[e|] c2] r]; cbn;
    rewrite <- ?app_assoc; done.
Qed.

Lemma claimFromQueue_miss d conn w :
  getFd (connectionManager w) d = Some conn ->
  socketAddresses w !! d = None ->
  let c1 := claimedWithout d conn w in
  let res := addNextRequest c1 (ring w) in
  let w' := claimFromQueue d w in
  socketAddresses w' = socketAddresses w /\
  connectionManager w' = <[d := res.1.2]> (connectionManager w) /\
  ring w' = res.2 /\
  trace w' = trace w ++ addressNotFound d :: OnAccept c1 :: requestErrorLog res.1.1.
Proof.
  intros Hg Ha c1 res w'. subst w' res. unfold claimFromQueue.
  rewrite Hg, (attachAddrs_miss _ _ _ Ha). fold c1. cbn [ring emit].
  destruct (addNextRequest c1 (ring w)) as [[[e|] c2] r]; cbn;
    rewrite <- ?app_assoc; done.
Qed.

Lemma dispatchEvent_addConn_hit cqe conn a w :
  hasFlag (UserData cqe) addConnFlag = true ->
  getFd (connectionManager w) (Res cqe) = Some conn ->
  socketAddresses w !! Res cqe = Some a ->
  let c1 := claimedWith a (Res cqe) conn w in
  let res := addNextRequest c1 (ring w) in
  let out := dispatchEvent cqe w in
  out.1 = res.1.1 /\
  socketAddresses out.2 = delete (Res cqe) (socketAddresses w) /\
  connectionManager out.2 = <[Res cqe := res.1.2]> (connectionManager w) /\
  ring out.2 = res.2 /\
  trace out.2 = trace w ++ [OnAccept c1].
Proof.
  intros Hf Hg Ha c1 res out. subst out res. unfold dispatchEvent.
  rewrite Hf, Hg, (attachAddrs_hit _ _ _ _ Ha). fold c1. cbn [ring emit setAddrs].
  destruct (addNextRequest c1 (ring w)) as [[e c2] r]; cbn. done.
Qed.

Lemma dispatchEvent_addConn_miss cqe conn w :
  hasFlag (UserData cqe) addConnFlag = true ->
  getFd (connectionManager w) (Res cqe) = Some conn ->
  socketAddresses w !! Res cqe = None ->
  let c1 := claimedWithout (Res cqe) conn w in
  let res := addNextRequest c1 (ring w) in
  let out := dispatchEvent cqe w in
  out.1 = res.1.1 /\
  socketAddresses out.2 = socketAddresses w /\
  connectionManager out.2 = <[Res cqe := res.1.2]> (connectionManager w) /\
  ring out.2 = res.2 /\
  trace out.2 = trace w ++ [addressNotFound (Res cqe); OnAccept c1].
Proof.
  intros Hf Hg Ha c1 res out. subst out res. unfold dispatchEvent.
  rewrite Hf, Hg, (attachAddrs_miss _ _ _ Ha). fold c1. cbn [ring emit].
  destruct (addNextRequest c1 (ring w)) as [[e c2] r]; cbn.
  rewrite <- app_assoc. done.
Qed.

End ClaimFacts.

Section EntryFacts.
Context {L : TagLayout} {C : Collaborators}.

(** [getConnsFromQueue] on a queue that holds one descriptor. *)
Lemma getConnsFromQueue_single d w :
  connQueue w = Some [d] ->
  getConnsFromQueue w = Some (claimFromQueue d (setQueue (Some []) w)).
Proof. intros Hq. unfold getConnsFromQueue. now rewrite Hq. Qed.

(** Queueing a descriptor on an empty queue and draining the queue. *)
Lemma getConnsFromQueue_after_enqueue d v :
  connQueue v = Some [] ->
  getConnsFromQueue (addConnToQueue d v).2 =
    Some (claimFromQueue d (setQueue (Some []) (setQueue (Some [d]) v))).
Proof.
  intros Hq. unfold addConnToQueue. rewrite Hq. cbn [snd app].
  now apply getConnsFromQueue_single.
Qed.

(** The callback on an event that [processEvent] lets through. *)
Lemma eventCallback_passed cqe v :
  processEvent cqe (skipUntracked v) = false ->
  eventCallback cqe v = dispatchEvent cqe v.
Proof. intros Hp. unfold eventCallback. now rewrite Hp. Qed.

Lemma claimedBy_hit d cqe conn a v v' :
  hasFlag (UserData cqe) addConnFlag = true -> Res cqe = d ->
  getFd (connectionManager v) d = Some conn ->
  socketAddresses v !! d = Some a ->
  claimedBy d cqe v v' ->
  socketAddresses v' = delete d (socketAddresses v) /\
  (exists rest, trace v' = trace v ++ OnAccept (claimedWith a d conn v) :: rest /\
                ~ In (addressNotFound d) rest) /\
  exists c2, connectionManager v' = <[d := c2]> (connectionManager v).
Proof.
  intros Hf Hr Hg Ha [[Hq Hget]|[Hp ->]].
  - rewrite (getConnsFromQueue_after_enqueue d v Hq) in Hget.
    injection Hget as <-.
    set (v0 := setQueue (Some []) (setQueue (Some [d]) v)).
    destruct (claimFromQueue_hit d conn a v0 Hg Ha) as (Hs & Hm & _ & Ht).
    split; [exact Hs|]. split; [|eexists; exact Hm].
    eexists. split; [exact Ht|].
    unfold requestErrorLog, addressNotFound.
    destruct (addNextRequest _ _).1.1; cbn;
      [intros [H|[]]; discriminate | intros []].
  - rewrite (eventCallback_passed cqe v Hp). subst d.
    destruct (dispatchEvent_addConn_hit cqe conn a v Hf Hg Ha) as (_ & Hs & Hm & _ & Ht).
    split; [exact Hs|]. split; [|eexists; exact Hm].
    exists []. split; [exact Ht|]. intros [].
Qed.

Lemma claimedBy_miss d cqe conn v v' :
  hasFlag (UserData cqe) addConnFlag = true -> Res cqe = d ->
  getFd (connectionManager v) d = Some conn ->
  socketAddresses v !! d = None ->
  claimedBy d cqe v v' ->
  socketAddresses v' = socketAddresses v /\
  exists rest,
    trace v' = trace v ++ addressNotFound d :: OnAccept (claimedWithout d conn v) :: rest.
Proof.
  intros Hf Hr Hg Ha [[Hq Hget]|[Hp ->]].
  - rewrite (getConnsFromQueue_after_enqueue d v Hq) in Hget.
    injection Hget as <-.
    set (v0 := setQueue (Some []) (setQueue (Some [d]) v)).
    destruct (claimFromQueue_miss d conn v0 Hg Ha) as (Hs & _ & _ & Ht).
    split; [exact Hs|]. eexists. exact Ht.
  - rewrite (eventCallback_passed cqe v Hp). subst d.
    destruct (dispatchEvent_addConn_miss cqe conn v Hf Hg Ha) as (_ & Hs & _ & _ & Ht).
    split; [exact Hs|]. eexists. exact Ht.
Qed.

End EntryFacts.

(** C6. A claim of descriptor [d] is made by [getConnsFromQueue] on the
    queue into which [d] was put, or by the event callback for an
    added-connection completion with result [d] that [processEvent] lets
    through.  A claim that finds the remote address of a tracked descriptor
    in the address map attaches that address (on-accept sees it), deletes
    the map entry and logs no miss.  The descriptor stays tracked and its
    entry is gone, so a second claim of the same descriptor, by either
    path, finds no entry: it logs the miss, hands on-accept the connection
    with the remote address it already had, and leaves the map as it
    was. *)
Theorem handoff_claim_drains_address {L : TagLayout} {C : Collaborators}
    (d : Z) (conn : connection) (a : netAddr) (cqe : CompletionQueueEvent)
    (w : consumerWorker) :
  getFd (connectionManager w) d = Some conn ->
  socketAddresses w !! d = Some a ->
  hasFlag (UserData cqe) addConnFlag = true ->
  Res cqe = d ->
  let isClaim := fun v v' : consumerWorker =>
    (connQueue v = Some [] /\ getConnsFromQueue (addConnToQueue d v).2 = Some v') \/
    (processEvent cqe (skipUntracked v) = false /\ v' = (eventCallback cqe v).2) in
  let c1 := claimedWith a d conn w in
  remoteAddr c1 = a /\
  (connQueue w = Some [] ->
     exists w1, getConnsFromQueue (addConnToQueue d w).2 = Some w1) /\
  forall w1, isClaim w w1 ->
    socketAddresses w1 = delete d (socketAddresses w) /\
    (exists rest, trace w1 = trace w ++ OnAccept c1 :: rest /\
                  ~ In (addressNotFound d) rest) /\
    exists c2,
      getFd (connectionManager w1) d = Some c2 /\
      socketAddresses w1 !! d = None /\
      let m := claimedWithout d c2 w1 in
      remoteAddr m = remoteAddr c2 /\
      forall w2, isClaim w1 w2 ->
        socketAddresses w2 = socketAddresses w1 /\
        exists rest, trace w2 = trace w1 ++ addressNotFound d :: OnAccept m :: rest.
Proof.
  intros Hg Ha Hf Hr isClaim c1. split; [done|].
  split.
  { intros Hq. eexists. now apply getConnsFromQueue_after_enqueue. }
  intros w1 Hc1. change (claimedBy d cqe w w1) in Hc1.
  destruct (claimedBy_hit d cqe conn a w w1 Hf Hr Hg Ha Hc1) as (Hs & Ht & c2 & Hm).
  split; [exact Hs|]. split; [exact Ht|].
  assert (Hg1 : getFd (connectionManager w1) d = Some c2)
    by (unfold getFd; rewrite Hm; apply lookup_insert_eq).
  assert (Ha1 : socketAddresses w1 !! d = None)
    by (rewrite Hs; apply lookup_delete_eq).
  exists c2. split; [exact Hg1|]. split; [exact Ha1|]. split; [done|].
  intros w2 Hc2. change (claimedBy d cqe w1 w2) in Hc2.
  exact (claimedBy_miss d cqe c2 w1 w2 Hf Hr Hg1 Ha1 Hc2).
Qed.

Lemma handoff_claim_drains_address_witness :
  let conn := sampleConn 0 connAccept in
  let w := sampleWorker {[ 7 := conn ]} {[ 7 := Some "10.0.0.9:4242" ]} (Some []) in
  let cqe := mkCQE (@composeTag (@addConnFlag sampleLayout) 7) 7 in
  let wl := (@eventCallback sampleLayout sampleCollaborators cqe w).2 in
  socketAddresses w !! 7 = Some (Some "10.0.0.9:4242") /\
  (exists wq, @getConnsFromQueue sampleCollaborators (addConnToQueue 7 w).2 = Some wq /\
              socketAddresses wq = delete 7 (socketAddresses w)) /\
  socketAddresses wl = delete 7 (socketAddresses w) /\
  socketAddresses wl !! 7 = None.
Proof.
  intros conn w cqe wl.
  assert (H1 : getFd (connectionManager w) 7 = Some conn) by reflexivity.
  assert (H2 : socketAddresses w !! 7 = Some (Some "10.0.0.9:4242")) by reflexivity.
  assert (H3 : @hasFlag (UserData cqe) (@addConnFlag sampleLayout) = true) by reflexivity.
  assert (H4 : Res cqe = 7) by reflexivity.
  destruct (@handoff_claim_drains_address sampleLayout sampleCollaborators
              7 conn _ cqe w H1 H2 H3 H4) as (_ & Hex & H).
  destruct (Hex eq_refl) as (wq & Hwq).
  destruct (H wq (or_introl (conj eq_refl Hwq))) as (Hsq & _).
  assert (Hp : processEvent cqe (@skipUntracked sampleLayout w) = false) by reflexivity.
  destruct (H wl (or_intror (conj Hp eq_refl))) as (Hsl & _ & c2 & _ & Hn & _).
  split; [exact H2|]. split; [exists wq; split; [exact Hwq|exact Hsq]|].
  split; [exact Hsl|exact Hn].
Defined.

(** C7, as stated, fails.  On a miss the code assigns no remote address,
    so the connection keeps the one it held: a tracked connection that
    already has a remote address is handed to on-accept, by either path,
    with that address and not with an absent one. *)
Lemma handoff_miss_counterexample :
  let L := sampleLayout in
  let C := sampleCollaborators in
  let conn := mkConnection 7 connAccept None (Some "10.0.0.1:5555") kernelSpace in
  let seen := mkConnection 7 connAccept (Some "127.0.0.1:8080")
                (Some "10.0.0.1:5555") userSpace in
  let w := sampleWorker {[ 7 := conn ]} ∅ (Some [7]) in
  let cqe := mkCQE (composeTag addConnFlag 7) 7 in
  socketAddresses w !! 7 = None /\
  remoteAddr seen <> None /\
  (exists wq, getConnsFromQueue w = Some wq /\
              trace wq = [addressNotFound 7; OnAccept seen] /\
              remoteAddr <$> connectionManager wq !! 7 = Some (Some "10.0.0.1:5555")) /\
  trace (eventCallback cqe w).2 = [addressNotFound 7; OnAccept seen] /\
  remoteAddr <$> connectionManager (eventCallback cqe w).2 !! 7
    = Some (Some "10.0.0.1:5555").
Proof.
  cbv zeta. split; [reflexivity|]. split; [discriminate|].
  split; [eexists; split; [reflexivity|split; reflexivity]|].
  split; reflexivity.
Qed.

(** C7, amended.  When a worker claims a tracked descriptor whose remote
    address is not in the address map, the miss is logged and tolerated:
    the buffers are marked user-owned, on-accept fires, and the first
    request is added for the connection, which stays tracked; no socket is
    closed and the map is left as it was.  The connection proceeds with the
    remote address it held before the claim, which is absent for a
    connection that had none.  This holds for [getConnsFromQueue] on a
    queue holding the descriptor and for the event callback on an
    added-connection completion that [processEvent] lets through; the
    queue path logs a failure to add the request, the callback returns
    it. *)
Theorem handoff_miss_tolerated {L : TagLayout} {C : Collaborators}
    (d : Z) (conn : connection) (cqe : CompletionQueueEvent) (w : consumerWorker) :
  getFd (connectionManager w) d = Some conn ->
  socketAddresses w !! d = None ->
  let m := claimedWithout d conn w in
  let res := addNextRequest m (ring w) in
  mode m = userSpace /\
  remoteAddr m = remoteAddr conn /\
  (remoteAddr conn = None -> remoteAddr m = None) /\
  (connQueue w = Some [d] ->
     exists wq,
       getConnsFromQueue w = Some wq /\
       trace wq = trace w ++ addressNotFound d :: OnAccept m :: requestErrorLog res.1.1 /\
       connectionManager wq = <[d := res.1.2]> (connectionManager w) /\
       ring wq = res.2 /\
       socketAddresses wq = socketAddresses w) /\
  (hasFlag (UserData cqe) addConnFlag = true ->
   Res cqe = d ->
   processEvent cqe (skipUntracked w) = false ->
     let out := eventCallback cqe w in
     out.1 = res.1.1 /\
     trace out.2 = trace w ++ [addressNotFound d; OnAccept m] /\
     connectionManager out.2 = <[d := res.1.2]> (connectionManager w) /\
     ring out.2 = res.2 /\
     socketAddresses out.2 = socketAddresses w).
Proof.
  intros Hg Ha m res.
  split; [done|]. split; [done|]. split; [intros Hn; exact Hn|].
  split.
  { intros Hq. exists (claimFromQueue d (setQueue (Some []) w)).
    split; [apply getConnsFromQueue_single; exact Hq|].
    set (w0 := setQueue (Some []) w).
    destruct (claimFromQueue_miss d conn w0 Hg Ha) as (Hs & Hm & Hring & Ht). done. }
  intros Hf Hr Hp. cbv zeta. rewrite (eventCallback_passed cqe w Hp). subst d.
  destruct (dispatchEvent_addConn_miss cqe conn w Hf Hg Ha)
    as (He & Hs & Hm & Hring & Ht). done.
Qed.

Lemma handoff_miss_tolerated_witness :
  let conn := sampleConn 0 connAccept in
  let w := sampleWorker {[ 7 := conn ]} ∅ (Some [7]) in
  let cqe := mkCQE (@composeTag (@addConnFlag sampleLayout) 7) 7 in
  let m := mkConnection 7 connAccept (Some "127.0.0.1:8080") None userSpace in
  socketAddresses w !! 7 = None /\
  (exists wq, @getConnsFromQueue sampleCollaborators w = Some wq /\
              trace wq = [addressNotFound 7; OnAccept m]) /\
  trace (@eventCallback sampleLayout sampleCollaborators cqe w).2
    = [addressNotFound 7; OnAccept m].
Proof.
  intros conn w cqe m.
  assert (H1 : getFd (connectionManager w) 7 = Some conn) by reflexivity.
  assert (H2 : socketAddresses w !! 7 = None) by reflexivity.
  destruct (@handoff_miss_tolerated sampleLayout sampleCollaborators
              7 conn cqe w H1 H2) as (_ & _ & _ & Hq & He).
  destruct (Hq eq_refl) as (wq & Hget & Ht & _).
  destruct (He eq_refl eq_refl eq_refl) as (_ & Hte & _).
  split; [exact H2|]. split; [exists wq; split; [exact Hget|exact Ht]|exact Hte].
Defined.

(** ** Consumer worker: shutdown *)

Section ShutdownFacts.
Context {L : TagLayout} {C : Collaborators}.

Lemma closeOne_free k conn w :
  (length (sq (ring w)) < sqEntries (ring w))%nat ->
  closeOne k conn w =
    (true, storeConn k (setState connClose conn)
             (setRing (populate (closeEntry conn) (ring w)) w)).
Proof.
  intros Hlt. unfold closeOne, addCloseConnRequest, GetSQE.
  destruct (Nat.ltb_spec (length (sq (ring w))) (sqEntries (ring w))); [done|lia].
Qed.

Lemma closeOne_full k conn w :
  (sqEntries (ring w) <= length (sq (ring w)))%nat ->
  closeOne k conn w = (false, emit closeFailLog w).
Proof.
  intros Hge. unfold closeOne, addCloseConnRequest, GetSQE.
  destruct (Nat.ltb_spec (length (sq (ring w))) (sqEntries (ring w))); [lia|done].
Qed.

(** The iteration of [closeAllConns] over the tracked connections: the
    first [freeEntries] of them get a close entry, each of the others a
    logged failure. *)
Lemma closeAll_fold (l : list (Z * connection)) (w : consumerWorker) :
  Forall (fun kc => fd kc.2 <> -1) l ->
  let w' := fold_left
              (fun w kc => if fd kc.2 =? -1 then w else (closeOne kc.1 kc.2 w).2) l w in
  sq (ring w') = sq (ring w) ++ map closeEntry (take (freeEntries (ring w)) l.*2) /\
  sqEntries (ring w') = sqEntries (ring w) /\
  trace w' = trace w ++ replicate (length l - freeEntries (ring w)) closeFailLog /\
  socketAddresses w' = socketAddresses w /\
  shutdownRequested w' = shutdownRequested w /\
  shutdownInProgress w' = shutdownInProgress w.
Proof.
  revert w. induction l as [|[k conn] l IH]; intros w Hall; cbn [fold_left].
  - cbn. rewrite take_nil, !app_nil_r. done.
  - inversion Hall as [|? ? Hfd Hall']; subst. cbn [fst snd] in *.
    destruct (Z.eqb_spec (fd conn) (-1)) as [|_]; [done|].
    destruct (Nat.lt_ge_cases (length (sq (ring w))) (sqEntries (ring w))) as [Hlt|Hge].
    + rewrite closeOne_free by done. cbn [snd].
      match goal with
      | |- context [fold_left _ l ?w1] => specialize (IH w1 Hall')
      end. cbv zeta in IH.
      destruct IH as (Hsq & Hn & Ht & Ha & Hr & Hp).
      rewrite Hsq, Hn, Ht, Ha, Hr, Hp. clear Hsq Hn Ht Ha Hr Hp.
      unfold freeEntries. cbn. rewrite length_app. cbn [length].
      replace (sqEntries (ring w) - length (sq (ring w)))%nat
        with (S (sqEntries (ring w) - (length (sq (ring w)) + 1)))%nat by lia.
      cbn [take map]. rewrite <- app_assoc. cbn.
      replace (S (length l) - S (sqEntries (ring w) - (length (sq (ring w)) + 1)))%nat
        with (length l - (sqEntries (ring w) - (length (sq (ring w)) + 1)))%nat by lia.
      done.
    + rewrite closeOne_full by done. cbn [snd].
      match goal with
      | |- context [fold_left _ l ?w1] => specialize (IH w1 Hall')
      end. cbv zeta in IH.
      destruct IH as (Hsq & Hn & Ht & Ha & Hr & Hp).
      rewrite Hsq, Hn, Ht, Ha, Hr, Hp. clear Hsq Hn Ht Ha Hr Hp.
      unfold freeEntries. cbn.
      replace (sqEntries (ring w) - length (sq (ring w)))%nat with 0%nat by lia.
      cbn [take map]. rewrite Nat.sub_0_r, <- app_assoc. cbn. done.
Qed.

Lemma closeAllConns_spec (w : consumerWorker) :
  (forall k c, connectionManager w !! k = Some c -> fd c <> -1) ->
  let conns := (map_to_list (connectionManager w)).*2 in
  let w' := closeAllConns w in
  sq (ring w') = sq (ring w) ++ map closeEntry (take (freeEntries (ring w)) conns) /\
  sqEntries (ring w') = sqEntries (ring w) /\
  trace w' = trace w ++ LogWarn "Closing connections"
               :: replicate (size (connectionManager w) - freeEntries (ring w)) closeFailLog /\
  shutdownRequested w' = shutdownRequested w /\
  shutdownInProgress w' = shutdownInProgress w.
Proof.
  intros Hfd conns w'. subst w' conns.
  unfold closeAllConns, connectionManager_close.
  set (w0 := emit (LogWarn "Closing connections") w).
  assert (Hall : Forall (fun kc : Z * connection => fd kc.2 <> -1)
                   (map_to_list (connectionManager w0))).
  { apply Forall_forall. intros [k c] Hin. cbn.
    apply elem_of_map_to_list in Hin. eauto. }
  destruct (closeAll_fold _ w0 Hall) as (Hsq & Hn & Ht & _ & Hr & Hp).
  rewrite Hsq, Hn, Ht, Hr, Hp. cbn.
  rewrite <- app_assoc, length_map_to_list. done.
Qed.

Lemma loopFinishCondition_spec (w : consumerWorker) :
  (connectionManager w = ∅ -> loopFinishCondition w = (true, emit NotifyFinish w)) /\
  (connectionManager w <> ∅ -> loopFinishCondition w = (false, w)).
Proof.
  unfold loopFinishCondition, allClosed. split; intros H.
  - now rewrite bool_decide_eq_true_2.
  - now rewrite bool_decide_eq_false_2.
Qed.

End ShutdownFacts.

Section FinishFacts.
Context {L : TagLayout} {C : Collaborators}.

Lemma quiet_refl w : quiet w w.
Proof. unfold quiet. auto. Qed.

Lemma quiet_trans w1 w2 w3 : quiet w1 w2 -> quiet w2 w3 -> quiet w1 w3.
Proof. unfold quiet. auto. Qed.

Lemma quiet_same_trace w w' : trace w' = trace w -> quiet w w'.
Proof. unfold quiet, finished. now intros ->. Qed.

Lemma quiet_emit e w : e <> NotifyFinish -> quiet w (emit e w).
Proof.
  unfold quiet, finished. cbn. rewrite in_app_iff. cbn.
  intros Hne [H|[H|[]]]; [done|congruence].
Qed.

(** Goals where the new trace is the old one followed by explicit effects. *)
Ltac quiet_crush :=
  unfold quiet, finished; cbn; rewrite ?in_app_iff; cbn;
  intuition (try discriminate).

Lemma quiet_closeConn k conn b err w : quiet w (closeConn k conn b err w).
Proof. unfold closeConn. destruct b; quiet_crush. Qed.

Lemma quiet_handleConn k conn cqe w : quiet w (handleConn k conn cqe w).
Proof.
  unfold handleConn. destruct (state conn).
  - cbv beta iota zeta.
    eapply quiet_trans; [|apply quiet_closeConn]. apply quiet_emit. discriminate.
  - destruct (onRead cqe conn (ring w)) as [[[e|] c] r]; cbv beta iota zeta.
    + eapply quiet_trans; [|apply quiet_closeConn].
      eapply quiet_trans; [|apply quiet_emit; discriminate].
      now apply quiet_same_trace.
    + now apply quiet_same_trace.
  - cbn [ring emit].
    destruct (addNextRequest _ _) as [[[e|] c] r]; cbv beta iota zeta.
    + eapply quiet_trans; [|apply quiet_closeConn].
      eapply quiet_trans; [|apply quiet_emit; discriminate].
      quiet_crush.
    + quiet_crush.
  - destruct (hasFlag (UserData cqe) closeConnFlag);
      [cbv beta iota zeta; apply quiet_closeConn|].
    destruct (hasFlag (UserData cqe) writeDataFlag);
      cbv beta iota zeta; [|apply quiet_refl].
    quiet_crush.
  - cbv beta iota zeta.
    eapply quiet_trans; [|apply quiet_closeConn]. apply quiet_emit. discriminate.
Qed.

Lemma quiet_attachAddrs d conn w : quiet w (attachAddrs d conn w).2.
Proof.
  unfold attachAddrs. destruct (socketAddresses w !! d); cbn.
  - quiet_crush.
  - quiet_crush.
Qed.

Lemma attachAddrs_eta d conn w :
  attachAddrs d conn w = ((attachAddrs d conn w).1, (attachAddrs d conn w).2).
Proof. now destruct (attachAddrs d conn w). Qed.

Lemma quiet_claimFromQueue d w : quiet w (claimFromQueue d w).
Proof.
  unfold claimFromQueue. destruct (getFd (connectionManager w) d) as [conn|].
  - rewrite attachAddrs_eta.
    destruct (addNextRequest _ _) as [[[e|] c] r].
    + eapply quiet_trans; [|apply quiet_emit; discriminate].
      eapply quiet_trans; [apply quiet_attachAddrs|]. now apply quiet_same_trace.
    + eapply quiet_trans; [apply quiet_attachAddrs|]. now apply quiet_same_trace.
  - apply quiet_emit. discriminate.
Qed.

Lemma quiet_drainQueue q w : quiet w (drainQueue q w).
Proof.
  revert w. induction q as [|d q IH]; intros w; cbn [drainQueue].
  - apply quiet_refl.
  - eapply quiet_trans; [|apply IH].
    eapply quiet_trans; [|apply quiet_claimFromQueue]. now apply quiet_same_trace.
Qed.

Lemma quiet_handleJobsInQueues w : quiet w (handleJobsInQueues w).
Proof.
  unfold handleJobsInQueues.
  destruct (connQueue w) as [q|];
    destruct (handleAsyncWritesIfEnabled _ _) as [m r].
  - eapply quiet_trans; [apply (quiet_drainQueue q)|]. now apply quiet_same_trace.
  - now apply quiet_same_trace.
Qed.

Lemma quiet_closeOne k conn w : quiet w (closeOne k conn w).2.
Proof.
  unfold closeOne, addCloseConnRequest. destruct (GetSQE (ring w)); cbn.
  - apply quiet_emit. discriminate.
  - now apply quiet_same_trace.
Qed.

Lemma quiet_closeAllConns w : quiet w (closeAllConns w).
Proof.
  unfold closeAllConns, connectionManager_close.
  eapply quiet_trans; [apply (quiet_emit (LogWarn "Closing connections")); discriminate|].
  generalize (map_to_list (connectionManager (emit (LogWarn "Closing connections") w))).
  generalize (emit (LogWarn "Closing connections") w).
  intros w0 l. revert w0. induction l as [|[k c] l IH]; intros w0; cbn [fold_left].
  - apply quiet_refl.
  - eapply quiet_trans; [|apply IH]. cbn [fst snd].
    destruct (fd c =? -1); [apply quiet_refl|apply quiet_closeOne].
Qed.

Lemma quiet_shutdownHandler w : quiet w (shutdownHandler w).2.
Proof.
  unfold shutdownHandler. destruct (needToShutdown w); cbn; [|apply quiet_refl].
  eapply quiet_trans; [apply quiet_closeAllConns|]. now apply quiet_same_trace.
Qed.

Lemma quiet_dispatchEvent cqe w : quiet w (dispatchEvent cqe w).2.
Proof.
  unfold dispatchEvent. destruct (hasFlag (UserData cqe) addConnFlag).
  - destruct (getFd (connectionManager w) (Res cqe)) as [conn|]; cbn.
    + rewrite attachAddrs_eta.
      destruct (addNextRequest _ _) as [[e c] r]. cbn.
      eapply quiet_trans; [apply quiet_attachAddrs|]. now apply quiet_same_trace.
    + quiet_crush.
  - destruct (_ <? syscall_Stderr); cbn; [apply quiet_emit; discriminate|].
    destruct (getFd _ _) as [conn|]; cbn.
    + apply quiet_handleConn.
    + quiet_crush.
Qed.

Lemma quiet_eventCallback cqe w : quiet w (eventCallback cqe w).2.
Proof.
  unfold eventCallback. destruct (processEvent _ _); cbn.
  - apply quiet_refl.
  - apply quiet_dispatchEvent.
Qed.

Lemma finished_dec w : finished w \/ ~ finished w.
Proof.
  unfold finished. induction (trace w) as [|e l IH]; [right; intros []|].
  destruct IH as [IH|IH]; [left; right; exact IH|].
  destruct e; try (right; intros [H|H]; [discriminate|done]).
  left. left. done.
Qed.

(** Of all hooks only the finish condition signals completion, and only on
    an empty registry. *)
Lemma runHook_finished h w :
  ~ finished w -> finished (runHook h w) ->
  h = HookFinishCondition /\ connectionManager w = ∅.
Proof.
  intros Hn Hf. destruct h; cbn [runHook] in Hf.
  - exfalso. apply Hn. revert Hf. apply (quiet_emit StartedSignal). discriminate.
  - exfalso. apply Hn. revert Hf. apply quiet_shutdownHandler.
  - exfalso. apply Hn. revert Hf. apply quiet_eventCallback.
  - exfalso. apply Hn. revert Hf. apply quiet_handleJobsInQueues.
  - split; [done|].
    destruct (decide (connectionManager w = ∅)) as [|Hne]; [done|].
    rewrite (proj2 (loopFinishCondition_spec w) Hne) in Hf. done.
Qed.

(** In any run of the hooks that ends with completion signalled, the signal
    was given by a finish-condition check made on an empty registry. *)
Lemma runHooks_finished hs w :
  ~ finished w -> finished (runHooks hs w) ->
  exists hs1 hs2,
    hs = hs1 ++ HookFinishCondition :: hs2 /\
    ~ finished (runHooks hs1 w) /\
    connectionManager (runHooks hs1 w) = ∅.
Proof.
  revert w. induction hs as [|h hs IH]; intros w Hn Hf.
  - done.
  - cbn [runHooks fold_left] in Hf. fold (runHooks hs (runHook h w)) in Hf.
    destruct (finished_dec (runHook h w)) as [Hfin|Hnot].
    + destruct (runHook_finished h w Hn Hfin) as [-> Hempty].
      exists [], hs. done.
    + destruct (IH _ Hnot Hf) as (hs1 & hs2 & -> & Hn1 & He1).
      exists (h :: hs1), hs2. done.
Qed.

End FinishFacts.

(** C3. When the shutdown hook fires on a worker tracking [K] connections,
    the worker asks once for a close operation for each of them: the
    tracked connections are enumerated without repetition, the first
    [freeEntries] of them get a close entry (tagged close flag | descriptor)
    on the ring, every other one gets a logged submission failure, so that
    entries and failures add up to [K] (and all [K] entries are issued when
    the queue has room).  Nothing is retried: once shutdown is marked in
    progress the hook does nothing more.  The finish condition signals
    completion exactly when the registry is empty, and in any run of the
    worker's hooks a completion signal was given by a finish-condition
    check on an empty registry. *)
Theorem shutdown_closes_each_connection_once {L : TagLayout} {C : Collaborators}
    (w : consumerWorker) :
  map_Forall (fun _ c => fd c <> -1) (connectionManager w) ->
  needToShutdown w = true ->
  let K := size (connectionManager w) in
  let tracked := map_to_list (connectionManager w) in
  let free := freeEntries (ring w) in
  let w' := (shutdownHandler w).2 in
  (length tracked = K /\ NoDup tracked.*1 /\
   forall k c, (k, c) ∈ tracked <-> connectionManager w !! k = Some c) /\
  sq (ring w') = sq (ring w) ++ map closeEntry (take free tracked.*2) /\
  trace w' = trace w ++ LogWarn "Closing connections" :: replicate (K - free) closeFailLog /\
  (length (take free tracked.*2) + (K - free) = K)%nat /\
  ((K <= free)%nat ->
     sq (ring w') = sq (ring w) ++ map closeEntry tracked.*2 /\
     trace w' = trace w ++ [LogWarn "Closing connections"]) /\
  shutdownHandler w' = (true, w') /\
  (forall v,
     (connectionManager v = ∅ -> loopFinishCondition v = (true, emit NotifyFinish v)) /\
     (connectionManager v <> ∅ -> loopFinishCondition v = (false, v))) /\
  (forall v hs, ~ finished v -> finished (runHooks hs v) ->
     exists hs1 hs2,
       hs = hs1 ++ HookFinishCondition :: hs2 /\
       ~ finished (runHooks hs1 v) /\
       connectionManager (runHooks hs1 v) = ∅).
Proof.
  intros Hfd Hneed K tracked free w'.
  assert (Hlen : length tracked = K) by apply length_map_to_list.
  destruct (closeAllConns_spec w Hfd) as (Hsq & Hn & Ht & Hr & Hp).
  fold tracked free K in Hsq, Ht.
  assert (Hw' : w' = markShutdownInProgress (closeAllConns w)).
  { subst w'. unfold shutdownHandler. now rewrite Hneed. }
  split.
  { split; [exact Hlen|]. split; [apply NoDup_fst_map_to_list|].
    intros k c. apply elem_of_map_to_list. }
  split; [rewrite Hw'; exact Hsq|].
  split; [rewrite Hw'; exact Ht|].
  split.
  { rewrite length_take, length_fmap, Hlen. lia. }
  split.
  { intros Hroom. rewrite Hw'. cbn [markShutdownInProgress ring trace].
    rewrite Hsq, Ht. rewrite take_ge by (rewrite length_fmap, Hlen; lia).
    replace (K - free)%nat with 0%nat by lia. done. }
  split.
  { rewrite Hw'. unfold shutdownHandler, needToShutdown. cbn.
    now rewrite andb_false_r. }
  split; [apply loopFinishCondition_spec|].
  intros v hs. apply runHooks_finished.
Qed.

Lemma shutdown_closes_each_connection_once_witness :
  let w := mkWorker {[ 3 := sampleConn 3 connRead; 4 := sampleConn 4 connWrite ]}
             ∅ None None (mkRing [] 1) true false [] in
  let w' := (@shutdownHandler sampleLayout w).2 in
  needToShutdown w = true /\
  size (connectionManager w) = 2%nat /\
  length (sq (ring w')) = 1%nat /\
  trace w' = [LogWarn "Closing connections"; closeFailLog].
Proof.
  intros w w'.
  assert (H1 : map_Forall (fun _ c => fd c <> -1) (connectionManager w))
    by (apply (bool_decide_unpack _); vm_compute; exact I).
  assert (H2 : needToShutdown w = true) by reflexivity.
  destruct (@shutdown_closes_each_connection_once sampleLayout sampleCollaborators
              w H1 H2) as (_ & Hsq & Ht & _).
  split; [exact H2|]. split; [reflexivity|].
  split; [subst w'; rewrite Hsq; reflexivity|exact Ht].
Defined.

(** ** Load balancer *)

Section RoundRobinFacts.
Context {W : Type}.
Local Open Scope nat_scope.

Lemma rrNext_spec (pool : list W) (c : nat) (w : W) :
  pool !! c = Some w ->
  rrNext (mkRoundRobin pool c) =
    Some (w, mkRoundRobin pool ((c + 1) mod length pool)).
Proof. intros Hw. unfold rrNext. cbn. now rewrite Hw. Qed.

(** The i-th of [n] successive calls returns the worker registered at
    position [(c + i) mod N]. *)
Lemma rrCalls_lookup (pool : list W) (n c : nat) :
  c < length pool ->
  exists ws,
    rrCalls n (mkRoundRobin pool c) =
      Some (ws, mkRoundRobin pool ((c + n) mod length pool)) /\
    length ws = n /\
    forall i, i < n -> ws !! i = pool !! ((c + i) mod length pool).
Proof.
  revert c. induction n as [|n IH]; intros c Hc.
  - exists []. cbn. rewrite Nat.add_0_r, Nat.mod_small by done.
    split; [done|]. split; [done|]. intros i Hi. lia.
  - destruct (lookup_lt_is_Some_2 pool c Hc) as [w Hw].
    assert (Hc' : (c + 1) mod length pool < length pool)
      by (apply Nat.mod_upper_bound; lia).
    destruct (IH _ Hc') as (ws & Hcalls & Hlen & Hlook).
    exists (w :: ws). cbn [rrCalls]. rewrite (rrNext_spec _ _ _ Hw), Hcalls.
    rewrite Nat.Div0.add_mod_idemp_l.
    replace (c + 1 + n) with (c + S n) by lia.
    split; [done|]. split; [cbn; lia|].
    intros [|i] Hi; cbn.
    + now rewrite Nat.add_0_r, Nat.mod_small.
    + rewrite Hlook by lia. rewrite Nat.Div0.add_mod_idemp_l.
      now replace (c + 1 + i) with (c + S i) by lia.
Qed.

Lemma rotation_lookup (pool : list W) (c i : nat) :
  c < length pool -> i < length pool ->
  (drop c pool ++ take c pool) !! i = pool !! ((c + i) mod length pool).
Proof.
  intros Hc Hi.
  destruct (Nat.lt_ge_cases (c + i) (length pool)) as [Hlt|Hge].
  - rewrite lookup_app_l by (rewrite length_drop; lia).
    now rewrite lookup_drop, Nat.mod_small.
  - rewrite lookup_app_r by (rewrite length_drop; lia).
    rewrite length_drop, lookup_take_lt by lia.
    replace (c + i) with ((c + i - length pool) + 1 * length pool) by lia.
    rewrite Nat.Div0.mod_add, Nat.mod_small by lia.
    f_equal. lia.
Qed.

Lemma registerAll_pool (ws : list W) (lb : roundRobinLoadBalancer W) :
  fold_left (fun lb w => rrRegister w lb) ws lb =
    mkRoundRobin (rrWorkers lb ++ ws) (nextWorkerIndex lb).
Proof.
  revert lb. induction ws as [|w ws IH]; intros lb; cbn [fold_left].
  - rewrite app_nil_r. now destruct lb.
  - rewrite IH. cbn. now rewrite <- app_assoc.
Qed.

End RoundRobinFacts.

(** C4. A round-robin balancer into which the workers [pool] were
    registered starts with cursor 0.  With [N] registered workers and the
    cursor at [c < N], [next] returns [pool[c]] and moves the cursor to
    [(c+1) mod N]; the i-th of any number of successive calls returns
    [pool[(c+i) mod N]], so the sequence of returned workers has period
    [N]; [N] successive calls return the pool rotated by [c], a permutation
    of the pool, and bring the cursor back to [c]; from the initial cursor
    0 they return the pool itself, in registration order. *)
Theorem round_robin_cycles {W : Type} (pool : list W) (c : nat) :
  (c < length pool)%nat ->
  let N := length pool in
  let lb := mkRoundRobin pool c in
  fold_left (fun lb w => rrRegister w lb) pool newRoundRobinLoadBalancer
    = mkRoundRobin pool 0 /\
  (exists w, pool !! c = Some w /\
     rrNext lb = Some (w, mkRoundRobin pool ((c + 1) mod N)%nat)) /\
  (forall n, exists ws,
     rrCalls n lb = Some (ws, mkRoundRobin pool ((c + n) mod N)%nat) /\
     length ws = n /\
     (forall i, (i < n)%nat -> ws !! i = pool !! ((c + i) mod N)%nat) /\
     (forall i, (i + N < n)%nat -> ws !! (i + N)%nat = ws !! i)) /\
  rrCalls N lb = Some (drop c pool ++ take c pool, lb) /\
  drop c pool ++ take c pool ≡ₚ pool /\
  (c = 0%nat -> rrCalls N lb = Some (pool, lb)).
Proof.
  intros Hc N lb.
  assert (Hfull : rrCalls N lb = Some (drop c pool ++ take c pool, lb)).
  { subst lb N.
    destruct (rrCalls_lookup pool (length pool) c Hc) as (ws & Hcalls & Hlen & Hlook).
    rewrite Hcalls.
    replace (c + length pool)%nat with (c + 1 * length pool)%nat by lia.
    rewrite Nat.Div0.mod_add, Nat.mod_small by done.
    do 2 f_equal. apply list_eq_same_length with (length pool); [|done|].
    - rewrite length_app, length_drop, length_take. lia.
    - intros i x y Hi Hx Hy. rewrite Hlook in Hx by done.
      rewrite rotation_lookup in Hy by done. congruence. }
  split; [apply registerAll_pool|].
  split.
  { destruct (lookup_lt_is_Some_2 pool c Hc) as [w Hw].
    exists w. split; [done|]. now apply rrNext_spec. }
  split.
  { intros n. subst lb N.
    destruct (rrCalls_lookup pool n c Hc) as (ws & Hcalls & Hlen & Hlook).
    exists ws. split; [done|]. split; [done|]. split; [done|].
    intros i Hi. rewrite !Hlook by lia. f_equal.
    replace (c + (i + length pool))%nat with (c + i + 1 * length pool)%nat by lia.
    now rewrite Nat.Div0.mod_add. }
  split; [exact Hfull|].
  split.
  { rewrite Permutation_app_comm. now rewrite take_drop. }
  intros ->. rewrite Hfull. cbn. now rewrite app_nil_r.
Qed.

Lemma round_robin_cycles_witness :
  let pool := createTestWorkers.1 in
  let lb := registerAllRR pool in
  lb = mkRoundRobin [0; 1; 2; 3]%nat 0 /\
  rrCalls 4 lb = Some ([0; 1; 2; 3]%nat, lb) /\
  rrCalls 8 lb = Some ([0; 1; 2; 3; 0; 1; 2; 3]%nat, lb).
Proof.
  intros pool lb.
  assert (Hc : (0 < length pool)%nat) by (cbn; lia).
  destruct (round_robin_cycles pool 0 Hc) as (Hreg & _ & _ & _ & _ & Hfull).
  split; [exact Hreg|]. split; [exact (Hfull eq_refl)|reflexivity].
Defined.

Section LeastConnectionsFacts.
Context {W : Type}.
Variable activeConns : W -> Z.

(** The scan invariant: [best] sits at position [ib] of the part already
    scanned, attains its minimum, and is the first to do so. *)
Lemma lcScan_invariant (ws pre : list W) (best : W) (ib : nat) :
  pre !! ib = Some best ->
  (forall j v, pre !! j = Some v -> activeConns best <= activeConns v) ->
  (forall j v, (j < ib)%nat -> pre !! j = Some v -> activeConns best < activeConns v) ->
  exists i,
    (pre ++ ws) !! i = Some (lcScan activeConns best (activeConns best) ws) /\
    (forall j v, (pre ++ ws) !! j = Some v ->
       activeConns (lcScan activeConns best (activeConns best) ws) <= activeConns v) /\
    (forall j v, (j < i)%nat -> (pre ++ ws) !! j = Some v ->
       activeConns (lcScan activeConns best (activeConns best) ws) < activeConns v).
Proof.
  revert pre best ib. induction ws as [|v ws IH]; intros pre best ib Hb Hmin Hfirst.
  - exists ib. rewrite app_nil_r. cbn. done.
  - cbn [lcScan]. replace (pre ++ v :: ws) with ((pre ++ [v]) ++ ws)
      by (now rewrite <- app_assoc).
    destruct (Z.ltb_spec (activeConns v) (activeConns best)) as [Hlt|Hge].
    + apply (IH (pre ++ [v]) v (length pre)).
      * rewrite lookup_app_r by lia. now rewrite Nat.sub_diag.
      * intros j u Hu. apply lookup_app_Some in Hu as [Hu|[_ Hu]].
        -- specialize (Hmin _ _ Hu). lia.
        -- apply list_lookup_singleton_Some in Hu as [_ <-]. lia.
      * intros j u Hj Hu. rewrite lookup_app_l in Hu by lia.
        specialize (Hmin _ _ Hu). lia.
    + apply (IH (pre ++ [v]) best ib).
      * apply lookup_app_l_Some. exact Hb.
      * intros j u Hu. apply lookup_app_Some in Hu as [Hu|[_ Hu]].
        -- exact (Hmin _ _ Hu).
        -- apply list_lookup_singleton_Some in Hu as [_ <-]. lia.
      * intros j u Hj Hu. apply lookup_lt_Some in Hb.
        rewrite lookup_app_l in Hu by lia. exact (Hfirst _ _ Hj Hu).
Qed.

End LeastConnectionsFacts.

(** C5. [next] of the least-connections balancer evaluates the counts it
    is given at the call: for a non-empty pool it returns the worker at
    some position [i] whose count is a minimum over the pool and strictly
    below the count of every worker registered before it.  In the scenario
    of the test (four workers, counts [1,0,2,1], every pick raising the
    picked worker's count by one before the next call) the eight successive
    picks are workers 1, 0, 1, 3, 0, 1, 2, 3. *)
Theorem least_connections_first_minimum {W : Type} (activeConns : W -> Z) (pool : list W) :
  pool <> [] ->
  (exists i w,
     lcNext activeConns (mkLeastConnections pool) = Some w /\
     pool !! i = Some w /\
     (forall j v, pool !! j = Some v -> activeConns w <= activeConns v) /\
     (forall j v, (j < i)%nat -> pool !! j = Some v -> activeConns w < activeConns v)) /\
  lcServe 8 (registerAllLC createTestWorkers.1) [1; 0; 2; 1]
    = Some [1; 0; 1; 3; 0; 1; 2; 3]%nat.
Proof.
  intros Hne. split; [|reflexivity].
  destruct pool as [|w0 ws]; [done|].
  destruct (lcScan_invariant activeConns ws [w0] w0 0) as (i & Hi & Hmin & Hfirst).
  - done.
  - intros j v Hv. apply list_lookup_singleton_Some in Hv as [_ <-]. lia.
  - intros j v Hj. lia.
  - exists i, (lcScan activeConns w0 (activeConns w0) ws). cbn in *. done.
Qed.

Lemma least_connections_first_minimum_witness :
  let pool := createTestWorkers.1 in
  let st := [1; 0; 2; 1] in
  pool <> [] /\
  lcNext (testActiveConnections st) (mkLeastConnections pool) = Some 1%nat /\
  lcServe 8 (registerAllLC pool) st = Some [1; 0; 1; 3; 0; 1; 2; 3]%nat.
Proof.
  intros pool st.
  assert (Hne : pool <> []) by discriminate.
  destruct (least_connections_first_minimum (testActiveConnections st) pool Hne)
    as (_ & Hserve).
  split; [exact Hne|]. split; [reflexivity|exact Hserve].
Defined.

(* ===================================================================== *)
(** * Further properties of the code *)
(* ===================================================================== *)

(** ** Acceptor *)

(** X1. [addAcceptConnRequest] succeeds exactly when the ring has a free
    entry and the listening descriptor is tracked.  Without a free entry it
    returns the ring's error wrapped and leaves the acceptor as it was.
    With one, the accept entry becomes the newest entry of the queue and the
    older entries stay.  In every case the queue keeps within its capacity,
    no connection is registered or removed, no connection other than the
    listening one is touched, and on success the listening connection is in
    the accepting state. *)
Theorem addAcceptConnRequest_outcomes {L : TagLayout} (a : acceptor) :
  let out := addAcceptConnRequest a in
  let entry := mkSQE OpAccept (acc_fd a) (composeTag acceptDataFlag (acc_fd a)) in
  (out.1 = None <->
     GetSQE (acc_ring a) = None /\
     is_Some (getFd (acc_connectionManager a) (acc_fd a))) /\
  (forall e, GetSQE (acc_ring a) = Some e ->
     out = (Some (Wrapped "error getting SQE" e), a)) /\
  (GetSQE (acc_ring a) = None ->
     sq (acc_ring out.2) = sq (acc_ring a) ++ [entry]) /\
  sqEntries (acc_ring out.2) = sqEntries (acc_ring a) /\
  ((length (sq (acc_ring a)) <= sqEntries (acc_ring a))%nat ->
   (length (sq (acc_ring out.2)) <= sqEntries (acc_ring out.2))%nat) /\
  dom (acc_connectionManager out.2) = dom (acc_connectionManager a) /\
  (forall k, k <> acc_fd a ->
     acc_connectionManager out.2 !! k = acc_connectionManager a !! k) /\
  (forall conn, out.1 = None ->
     getFd (acc_connectionManager a) (acc_fd a) = Some conn ->
     getFd (acc_connectionManager out.2) (acc_fd a) = Some (setState connAccept conn)).
Proof.
  intros out entry. subst out entry.
  unfold addAcceptConnRequest, addAcceptRequest, composeTag, GetSQE.
  destruct (Nat.ltb_spec (length (sq (acc_ring a))) (sqEntries (acc_ring a)))
    as [Hfree|Hfull]; cbn [acc_ring acc_fd acc_connectionManager fst snd].
  - destruct (getFd (acc_connectionManager a) (acc_fd a)) as [conn|] eqn:Hget;
      cbn [acc_ring acc_fd acc_connectionManager fst snd populate sq sqEntries].
    + split; [split; [intros _; split; [done|eauto]|done]|].
      split; [intros e [=]|]. split; [done|]. split; [done|].
      split; [rewrite length_app; cbn; lia|].
      split; [apply dom_insert_lookup_L; unfold getFd in Hget; eauto|].
      split; [intros k Hk; now rewrite lookup_insert_ne|].
      intros c _ [= <-]. unfold getFd. apply lookup_insert_eq.
    + split; [split; [intros [=]|intros [_ [c [=]]]]|].
      split; [intros e [=]|]. split; [done|]. split; [done|].
      split; [rewrite length_app; cbn; lia|].
      split; [done|]. split; [done|]. intros c [=].
  - split; [split; [intros [=]|intros [[=] _]]|].
    split; [intros e [= <-]; done|]. split; [intros [=]|]. split; [done|].
    split; [done|]. split; [done|]. split; [done|]. intros c [=].
Qed.

(** ** Consumer worker: the fallback queue *)

Section QueueFacts.
Context {L : TagLayout} {C : Collaborators}.

Lemma claimFromQueue_untracked d w :
  getFd (connectionManager w) d = None ->
  claimFromQueue d w =
    emit (LogError (Some (ErrorConnectionIsMissing d)) "Get new connection error") w.
Proof. intros Hg. unfold claimFromQueue. now rewrite Hg. Qed.

Lemma claimFromQueue_connQueue d w :
  connQueue (claimFromQueue d w) = connQueue w.
Proof.
  unfold claimFromQueue, attachAddrs.
  destruct (getFd (connectionManager w) d) as [conn|]; [|done].
  destruct (socketAddresses w !! d); cbn [ring emit setAddrs];
    destruct (addNextRequest _ _) as [[[e|] c] r]; done.
Qed.

Lemma missingFds_requestErrorLog err : missingFds (requestErrorLog err) = [].
Proof. destruct err as [[]|]; done. Qed.

Lemma acceptedFds_requestErrorLog err : acceptedFds (requestErrorLog err) = [].
Proof. destruct err; done. Qed.

Lemma closedSockets_requestErrorLog err : closedSockets (requestErrorLog err) = [].
Proof. destruct err; done. Qed.

(** One turn of the loop: the descriptor is handed to on-accept when it is
    tracked and reported missing when it is not; no connection is
    registered or removed and no socket is closed. *)
Lemma claimFromQueue_step d w :
  dom (connectionManager (claimFromQueue d w)) = dom (connectionManager w) /\
  exists es,
    trace (claimFromQueue d w) = trace w ++ es /\
    acceptedFds es = (if decide (is_Some (connectionManager w !! d)) then [d] else []) /\
    missingFds es = (if decide (is_Some (connectionManager w !! d)) then [] else [d]) /\
    closedSockets es = [].
Proof.
  destruct (connectionManager w !! d) as [conn|] eqn:Hg.
  - rewrite decide_True by eauto.
    destruct (socketAddresses w !! d) as [a|] eqn:Ha.
    + destruct (claimFromQueue_hit d conn a w Hg Ha) as (_ & Hm & _ & Ht).
      split; [rewrite Hm; apply dom_insert_lookup_L; eauto|].
      eexists. split; [exact Ht|]. cbn.
      now rewrite acceptedFds_requestErrorLog, missingFds_requestErrorLog,
        closedSockets_requestErrorLog.
    + destruct (claimFromQueue_miss d conn w Hg Ha) as (_ & Hm & _ & Ht).
      split; [rewrite Hm; apply dom_insert_lookup_L; eauto|].
      eexists. split; [exact Ht|]. cbn.
      now rewrite acceptedFds_requestErrorLog, missingFds_requestErrorLog,
        closedSockets_requestErrorLog.
  - rewrite decide_False by (intros [? [=]]).
    rewrite (claimFromQueue_untracked d w Hg). split; [done|].
    eexists. split; [reflexivity|]. done.
Qed.

Lemma dispatchEvent_connQueue cqe w :
  connQueue (dispatchEvent cqe w).2 = connQueue w.
Proof.
  unfold dispatchEvent, attachAddrs. destruct (hasFlag (UserData cqe) addConnFlag).
  - destruct (getFd (connectionManager w) (Res cqe)) as [conn|]; [|done].
    destruct (socketAddresses w !! Res cqe); cbn [ring emit setAddrs];
      destruct (addNextRequest _ _) as [[e c] r]; done.
  - destruct (_ <? syscall_Stderr); [done|].
    destruct (getFd _ _) as [conn|]; [|done]. cbn [snd].
    unfold handleConn, closeConn. destruct (state conn).
    + done.
    + destruct (onRead cqe conn (ring w)) as [[[e|] c] r]; done.
    + cbn [ring emit]. destruct (addNextRequest _ _) as [[[e|] c] r]; done.
    + destruct (hasFlag (UserData cqe) closeConnFlag); [done|].
      destruct (hasFlag (UserData cqe) writeDataFlag); done.
    + done.
Qed.

Lemma drainQueue_spec q w :
  connQueue w = Some q ->
  connQueue (drainQueue q w) = Some [] /\
  dom (connectionManager (drainQueue q w)) = dom (connectionManager w) /\
  exists es,
    trace (drainQueue q w) = trace w ++ es /\
    acceptedFds es = filter (fun d => is_Some (connectionManager w !! d)) q /\
    missingFds es = filter (fun d => ~ is_Some (connectionManager w !! d)) q /\
    closedSockets es = [].
Proof.
  revert w. induction q as [|d q IH]; intros w Hq; cbn [drainQueue].
  - split; [done|]. split; [done|]. exists []. now rewrite app_nil_r.
  - set (w0 := setQueue (Some q) w).
    destruct (claimFromQueue_step d w0) as (Hdom1 & es1 & Ht1 & Ha1 & Hm1 & Hc1).
    destruct (IH (claimFromQueue d w0)) as (Hq2 & Hdom2 & es2 & Ht2 & Ha2 & Hm2 & Hc2).
    { now rewrite claimFromQueue_connQueue. }
    assert (Hsame : forall x, is_Some (connectionManager (claimFromQueue d w0) !! x)
                              <-> is_Some (connectionManager w !! x)).
    { intros x. rewrite <- !elem_of_dom, Hdom1. done. }
    split; [exact Hq2|]. split; [now rewrite Hdom2, Hdom1|].
    exists (es1 ++ es2). split; [rewrite Ht2, Ht1; cbn; now rewrite app_assoc|].
    unfold acceptedFds, missingFds, closedSockets in *.
    rewrite !omap_app, Ha1, Hm1, Hc1, Ha2, Hm2, Hc2, !filter_cons. cbn [connectionManager w0 setQueue].
    rewrite (list_filter_iff _ (fun x => is_Some (connectionManager w !! x)) q Hsame).
    rewrite (list_filter_iff (fun x => ~ is_Some (connectionManager (claimFromQueue d w0) !! x))
               (fun x => ~ is_Some (connectionManager w !! x)) q)
      by (intros x; now rewrite Hsame).
    destruct (decide (is_Some (connectionManager w !! d))) as [Hs|Hn].
    + rewrite decide_False by tauto. done.
    + rewrite decide_True by tauto. done.
Qed.

End QueueFacts.

(** X2. [getConnsFromQueue] empties the queue and handles every queued
    descriptor once, in queue order: the descriptors handed to on-accept
    are the queued descriptors that are tracked, the descriptors reported
    missing are the ones that are not.  It registers and removes no
    connection and closes no socket. *)
Theorem getConnsFromQueue_drains {C : Collaborators}
    (q : list Z) (w : consumerWorker) :
  connQueue w = Some q ->
  exists w' es,
    getConnsFromQueue w = Some w' /\
    connQueue w' = Some [] /\
    dom (connectionManager w') = dom (connectionManager w) /\
    trace w' = trace w ++ es /\
    acceptedFds es = filter (fun d => is_Some (connectionManager w !! d)) q /\
    missingFds es = filter (fun d => ~ is_Some (connectionManager w !! d)) q /\
    closedSockets es = [].
Proof.
  intros Hq. destruct (drainQueue_spec q w Hq) as (Hq' & Hdom & es & Ht & Ha & Hm & Hc).
  exists (drainQueue q w), es. unfold getConnsFromQueue. rewrite Hq. done.
Qed.

Lemma getConnsFromQueue_drains_witness :
  let w := sampleWorker {[ 7 := sampleConn 0 connAccept; 9 := sampleConn 0 connAccept ]}
             ∅ (Some [9; 4; 7]) in
  exists w' es,
    @getConnsFromQueue sampleCollaborators w = Some w' /\
    connQueue w' = Some [] /\
    trace w' = trace w ++ es /\
    acceptedFds es = [9; 7] /\
    missingFds es = [4].
Proof.
  intros w.
  destruct (@getConnsFromQueue_drains sampleCollaborators [9; 4; 7] w eq_refl)
    as (w' & es & Hg & Hq & _ & Ht & Ha & Hm & _).
  exists w', es. split; [exact Hg|]. split; [exact Hq|]. split; [exact Ht|].
  split; [exact Ha|exact Hm].
Defined.

(** X3. Handoff round trip through the fallback queue.  On a worker with
    an empty queue that tracks descriptor [d], storing an address for [d],
    queueing [d] and draining the queue hands on-accept the connection with
    exactly that address as remote address, the worker's local address,
    descriptor [d] and user-owned buffers; the queue is empty again and the
    address map is the map from before the handoff without an entry for
    [d], also when a stale entry was overwritten by the store. *)
Theorem handoff_round_trip {C : Collaborators}
    (d : Z) (a : netAddr) (conn : connection) (w : consumerWorker) :
  connQueue w = Some [] ->
  getFd (connectionManager w) d = Some conn ->
  let out := addConnToQueue d (setSocketAddr d a w) in
  let c1 := claimedWith a d conn w in
  let res := addNextRequest c1 (ring w) in
  out.1 = None /\
  connQueue out.2 = Some [d] /\
  (fd c1 = d /\ remoteAddr c1 = a /\ localAddr c1 = workerLocalAddr w /\
   mode c1 = userSpace) /\
  exists w3,
    getConnsFromQueue out.2 = Some w3 /\
    connQueue w3 = Some [] /\
    socketAddresses w3 = delete d (socketAddresses w) /\
    trace w3 = trace w ++ OnAccept c1 :: requestErrorLog res.1.1 /\
    connectionManager w3 = <[d := res.1.2]> (connectionManager w) /\
    ring w3 = res.2.
Proof.
  intros Hq Hg out c1 res. subst out. unfold addConnToQueue, setSocketAddr.
  cbn [connQueue setAddrs]. rewrite Hq. cbn [fst snd connQueue setQueue app].
  split; [done|]. split; [done|]. split; [done|].
  eexists. split; [reflexivity|]. cbn [drainQueue].
  match goal with |- context [claimFromQueue d ?w0] => set (w2 := w0) end.
  assert (Ha2 : socketAddresses w2 !! d = Some a) by apply lookup_insert_eq.
  destruct (claimFromQueue_hit d conn a w2 Hg Ha2) as (Hs & Hm & Hr & Ht).
  split; [now rewrite claimFromQueue_connQueue|].
  split; [rewrite Hs; apply delete_insert_eq|].
  split; [exact Ht|]. split; [exact Hm|exact Hr].
Qed.

Lemma handoff_round_trip_witness :
  let w := sampleWorker {[ 7 := sampleConn 0 connAccept ]}
             {[ 7 := Some "10.0.0.1:1" ]} (Some []) in
  let a := Some "10.0.0.9:4242" in
  exists w3,
    @getConnsFromQueue sampleCollaborators (addConnToQueue 7 (setSocketAddr 7 a w)).2
      = Some w3 /\
    socketAddresses w3 = delete 7 (socketAddresses w) /\
    trace w3 = [OnAccept (mkConnection 7 connAccept (Some "127.0.0.1:8080") a userSpace)].
Proof.
  intros w a.
  destruct (@handoff_round_trip sampleCollaborators 7 a (sampleConn 0 connAccept) w
              eq_refl eq_refl) as (_ & _ & _ & w3 & Hg & _ & Hs & Ht & _).
  exists w3. split; [exact Hg|]. split; [exact Hs|exact Ht].
Defined.

(** X4. The two claim paths end in the same worker state.  On a worker
    whose queue holds the tracked descriptor [d], [getConnsFromQueue] and
    the event callback for an added-connection completion with result [d]
    that [processEvent] lets through leave the same registry, address map
    and ring.  They differ in what becomes of a failure to add the first
    request, which [getConnsFromQueue] logs and the callback returns, and
    in the queue, which only [getConnsFromQueue] empties. *)
Theorem claim_paths_converge {L : TagLayout} {C : Collaborators}
    (d : Z) (conn : connection) (cqe : CompletionQueueEvent) (w : consumerWorker) :
  getFd (connectionManager w) d = Some conn ->
  connQueue w = Some [d] ->
  hasFlag (UserData cqe) addConnFlag = true ->
  Res cqe = d ->
  processEvent cqe (skipUntracked w) = false ->
  let out := eventCallback cqe w in
  exists wq,
    getConnsFromQueue w = Some wq /\
    connectionManager wq = connectionManager out.2 /\
    socketAddresses wq = socketAddresses out.2 /\
    ring wq = ring out.2 /\
    trace wq = trace out.2 ++ requestErrorLog out.1 /\
    connQueue wq = Some [] /\
    connQueue out.2 = Some [d].
Proof.
  intros Hg Hq Hf Hr Hp out. subst out.
  exists (claimFromQueue d (setQueue (Some []) w)).
  split; [apply getConnsFromQueue_single; exact Hq|].
  rewrite (eventCallback_passed cqe w Hp).
  set (w0 := setQueue (Some []) w).
  assert (Hq0 : connQueue (claimFromQueue d w0) = Some [])
    by (now rewrite claimFromQueue_connQueue).
  assert (Hql : connQueue (dispatchEvent cqe w).2 = Some [d]).
  { now rewrite dispatchEvent_connQueue. }
  subst d.
  destruct (socketAddresses w !! Res cqe) as [a|] eqn:Ha.
  - destruct (claimFromQueue_hit _ conn a w0 Hg Ha) as (Hs & Hm & Hring & Ht).
    destruct (dispatchEvent_addConn_hit cqe conn a w Hf Hg Ha)
      as (He & Hs' & Hm' & Hring' & Ht').
    rewrite Hs, Hm, Hring, Ht, He, Hs', Hm', Hring', Ht', <- app_assoc. done.
  - destruct (claimFromQueue_miss _ conn w0 Hg Ha) as (Hs & Hm & Hring & Ht).
    destruct (dispatchEvent_addConn_miss cqe conn w Hf Hg Ha)
      as (He & Hs' & Hm' & Hring' & Ht').
    rewrite Hs, Hm, Hring, Ht, He, Hs', Hm', Hring', Ht', <- app_assoc. done.
Qed.

Lemma claim_paths_converge_witness :
  let w := sampleWorker {[ 7 := sampleConn 0 connAccept ]}
             {[ 7 := Some "10.0.0.9:4242" ]} (Some [7]) in
  let cqe := mkCQE (@composeTag (@addConnFlag sampleLayout) 7) 7 in
  exists wq,
    @getConnsFromQueue sampleCollaborators w = Some wq /\
    connectionManager wq =
      connectionManager (@eventCallback sampleLayout sampleCollaborators cqe w).2 /\
    connectionManager wq !! 7 =
      Some (mkConnection 7 connRead (Some "127.0.0.1:8080") (Some "10.0.0.9:4242")
              kernelSpace).
Proof.
  intros w cqe.
  destruct (@claim_paths_converge sampleLayout sampleCollaborators 7
              (sampleConn 0 connAccept) cqe w eq_refl eq_refl eq_refl eq_refl eq_refl)
    as (wq & Hget & Hm & _).
  exists wq. split; [exact Hget|]. split; [exact Hm|].
  rewrite Hm. reflexivity.
Defined.

(** ** Consumer worker: what a completion can touch *)

Section IsolationFacts.
Context {L : TagLayout} {C : Collaborators}.

Lemma handleConn_frame k conn cqe w :
  let w' := handleConn k conn cqe w in
  (forall k', k' <> k -> connectionManager w' !! k' = connectionManager w !! k') /\
  socketAddresses w' = socketAddresses w /\
  connQueue w' = connQueue w.
Proof.
  unfold handleConn, closeConn.
  destruct (state conn).
  - cbn. split; [intros k' Hk; now rewrite lookup_delete_ne|done].
  - destruct (onRead cqe conn (ring w)) as [[[e|] c] r]; cbn.
    + split; [intros k' Hk; now rewrite lookup_delete_ne, lookup_insert_ne|done].
    + split; [intros k' Hk; now rewrite lookup_insert_ne|done].
  - cbn [ring emit]. destruct (addNextRequest _ _) as [[[e|] c] r]; cbn.
    + split; [intros k' Hk; now rewrite lookup_delete_ne, lookup_insert_ne|done].
    + split; [intros k' Hk; now rewrite lookup_insert_ne|done].
  - destruct (hasFlag (UserData cqe) closeConnFlag); cbn.
    + split; [intros k' Hk; now rewrite lookup_delete_ne|done].
    + destruct (hasFlag (UserData cqe) writeDataFlag); cbn.
      * split; [intros k' Hk; now rewrite lookup_insert_ne|done].
      * done.
  - cbn. split; [intros k' Hk; now rewrite lookup_delete_ne|done].
Qed.

Lemma attachAddrs_frame d conn w :
  let w' := (attachAddrs d conn w).2 in
  connectionManager w' = connectionManager w /\
  (forall k, k <> d -> socketAddresses w' !! k = socketAddresses w !! k) /\
  socketAddresses w' ⊆ socketAddresses w /\
  connQueue w' = connQueue w /\
  ring w' = ring w.
Proof.
  unfold attachAddrs. destruct (socketAddresses w !! d) eqn:Ha; cbn.
  - split; [done|]. split; [intros k Hk; now rewrite lookup_delete_ne|].
    split; [apply delete_subseteq|done].
  - done.
Qed.

End IsolationFacts.

(** X5. A completion event touches one registry key only, the key it is
    about (the result value for an added-connection completion, the
    flag-masked tag otherwise): every other connection and every other
    address-map entry is left as it was.  The event callback registers no
    connection, stores no address and leaves the fallback queue alone. *)
Theorem eventCallback_isolation {L : TagLayout} {C : Collaborators}
    (cqe : CompletionQueueEvent) (w : consumerWorker) :
  let w' := (eventCallback cqe w).2 in
  (forall k, k <> affectedKey cqe ->
     connectionManager w' !! k = connectionManager w !! k) /\
  (forall k, k <> affectedKey cqe ->
     socketAddresses w' !! k = socketAddresses w !! k) /\
  dom (connectionManager w') ⊆ dom (connectionManager w) /\
  socketAddresses w' ⊆ socketAddresses w /\
  connQueue w' = connQueue w.
Proof.
  cbv zeta. unfold eventCallback, affectedKey.
  destruct (processEvent cqe (skipUntracked w)); [done|].
  unfold dispatchEvent.
  destruct (hasFlag (UserData cqe) addConnFlag).
  - destruct (getFd (connectionManager w) (Res cqe)) as [conn|] eqn:Hg; [|done].
    rewrite attachAddrs_eta.
    destruct (attachAddrs_frame (Res cqe) conn w) as (Hm & Ha & Hsub & Hq & Hr).
    destruct (addNextRequest _ _) as [[e c] r]. cbn.
    rewrite Hm. split; [intros k Hk; now rewrite lookup_insert_ne|].
    split; [exact Ha|]. split; [|done].
    rewrite dom_insert_lookup_L by (unfold getFd in Hg; eauto). done.
  - destruct (_ <? syscall_Stderr); [done|].
    destruct (getFd (connectionManager w) _) as [conn|] eqn:Hg; [|done].
    cbn [snd].
    destruct (handleConn_frame (int_of_uint64 (maskFlags (UserData cqe))) conn cqe w)
      as (Hm & Ha & Hq).
    split; [exact Hm|]. split; [intros k _; now rewrite Ha|].
    split; [|now rewrite Ha, Hq].
    intros k Hk. apply elem_of_dom. apply elem_of_dom in Hk.
    destruct (decide (k = int_of_uint64 (maskFlags (UserData cqe)))) as [->|Hne].
    + unfold getFd in Hg. eauto.
    + now rewrite <- Hm.
Qed.

Section ClosingFacts.
Context {L : TagLayout} {C : Collaborators}.



End ClosingFacts.



(** ** Consumer worker: what the hooks keep over a run *)

Section FrameFacts.
Context {L : TagLayout} {C : Collaborators}.

Lemma closingWarns_app l1 l2 :
  closingWarns (l1 ++ l2) = (closingWarns l1 + closingWarns l2)%nat.
Proof. unfold closingWarns. now rewrite List.filter_app, length_app. Qed.

Lemma hookFrame_refl w : hookFrame w w.
Proof. split; try done. exists []. now rewrite app_nil_r. Qed.

Lemma hookFrame_trans w1 w2 w3 :
  hookFrame w1 w2 -> hookFrame w2 w3 -> hookFrame w1 w3.
Proof.
  intros [Ha1 Hq1 Hl1 Hr1 Hp1 (es1 & Ht1 & Hc1)] [Ha2 Hq2 Hl2 Hr2 Hp2 (es2 & Ht2 & Hc2)].
  split.
  - now transitivity (socketAddresses w2).
  - tauto.
  - congruence.
  - congruence.
  - congruence.
  - exists (es1 ++ es2). rewrite Ht2, Ht1, app_assoc, closingWarns_app, Hc1, Hc2. done.
Qed.

(** States reached by the setters and by logging anything but the closing
    warning. *)
Ltac frame_crush :=
  split; cbn;
  [ first [done | apply delete_subseteq]
  | done | done | done | done
  | rewrite <- ?app_assoc;
    first [ exists []; rewrite app_nil_r; done
          | eexists; split; [reflexivity|reflexivity] ] ].

Lemma hookFrame_closeConn k conn b err w : hookFrame w (closeConn k conn b err w).
Proof. unfold closeConn. destruct b; frame_crush. Qed.

Lemma hookFrame_handleConn k conn cqe w : hookFrame w (handleConn k conn cqe w).
Proof.
  unfold handleConn, closeConn. destruct (state conn).
  - frame_crush.
  - destruct (onRead cqe conn (ring w)) as [[[e|] c] r]; frame_crush.
  - cbn [ring emit]. destruct (addNextRequest _ _) as [[[e|] c] r]; frame_crush.
  - destruct (hasFlag (UserData cqe) closeConnFlag); [frame_crush|].
    destruct (hasFlag (UserData cqe) writeDataFlag); frame_crush.
  - frame_crush.
Qed.

Lemma hookFrame_claimFromQueue d w : hookFrame w (claimFromQueue d w).
Proof.
  unfold claimFromQueue, attachAddrs.
  destruct (getFd (connectionManager w) d) as [conn|]; [|frame_crush].
  destruct (socketAddresses w !! d); cbn [ring emit setAddrs];
    destruct (addNextRequest _ _) as [[[e|] c] r]; frame_crush.
Qed.

Lemma hookFrame_drainQueue q w :
  connQueue w <> None -> hookFrame w (drainQueue q w).
Proof.
  revert w. induction q as [|d q IH]; intros w Hq; cbn [drainQueue].
  - apply hookFrame_refl.
  - eapply hookFrame_trans; [|apply IH].
    + eapply hookFrame_trans; [|apply hookFrame_claimFromQueue].
      split; cbn; try done. exists []. now rewrite app_nil_r.
    + now rewrite claimFromQueue_connQueue.
Qed.

Lemma hookFrame_handleJobsInQueues w : hookFrame w (handleJobsInQueues w).
Proof.
  unfold handleJobsInQueues.
  destruct (connQueue w) as [q|] eqn:Hq;
    destruct (handleAsyncWritesIfEnabled _ _) as [m r].
  - eapply hookFrame_trans; [apply (hookFrame_drainQueue q); congruence|].
    frame_crush.
  - frame_crush.
Qed.

Lemma hookFrame_closeOne k conn w : hookFrame w (closeOne k conn w).2.
Proof.
  unfold closeOne, addCloseConnRequest. destruct (GetSQE (ring w)); frame_crush.
Qed.

Lemma hookFrame_closeFold (l : list (Z * connection)) w :
  hookFrame w
    (fold_left (fun w kc => if fd kc.2 =? -1 then w else (closeOne kc.1 kc.2 w).2) l w).
Proof.
  revert w. induction l as [|[k c] l IH]; intros w; cbn [fold_left].
  - apply hookFrame_refl.
  - eapply hookFrame_trans; [|apply IH]. cbn [fst snd].
    destruct (fd c =? -1); [apply hookFrame_refl|apply hookFrame_closeOne].
Qed.

Lemma hookFrame_dispatchEvent cqe w : hookFrame w (dispatchEvent cqe w).2.
Proof.
  unfold dispatchEvent, attachAddrs. destruct (hasFlag (UserData cqe) addConnFlag).
  - destruct (getFd (connectionManager w) (Res cqe)) as [conn|]; [|frame_crush].
    destruct (socketAddresses w !! Res cqe); cbn [ring emit setAddrs];
      destruct (addNextRequest _ _) as [[e c] r]; frame_crush.
  - destruct (_ <? syscall_Stderr); [frame_crush|].
    destruct (getFd _ _) as [conn|]; [apply hookFrame_handleConn|frame_crush].
Qed.

Lemma hookFrame_eventCallback cqe w : hookFrame w (eventCallback cqe w).2.
Proof.
  unfold eventCallback. destruct (processEvent _ _).
  - apply hookFrame_refl.
  - apply hookFrame_dispatchEvent.
Qed.

(** The shutdown hook when shutdown is needed: the frame of the other
    hooks, but for the flag it raises and the one warning it logs. *)
Lemma shutdownHandler_needed w :
  needToShutdown w = true ->
  let w' := (shutdownHandler w).2 in
  socketAddresses w' ⊆ socketAddresses w /\
  (connQueue w' = None <-> connQueue w = None) /\
  workerLocalAddr w' = workerLocalAddr w /\
  shutdownRequested w' = shutdownRequested w /\
  shutdownInProgress w' = true /\
  exists es, trace w' = trace w ++ es /\ closingWarns es = 1%nat.
Proof.
  intros Hneed. cbv zeta. unfold shutdownHandler. rewrite Hneed. cbn [snd].
  unfold closeAllConns, connectionManager_close.
  set (w0 := emit (LogWarn "Closing connections") w).
  destruct (hookFrame_closeFold (map_to_list (connectionManager w0)) w0)
    as [Ha Hq Hl Hr Hp (es & Ht & Hc)].
  cbn [markShutdownInProgress socketAddresses connQueue workerLocalAddr
         shutdownRequested shutdownInProgress trace].
  split; [exact Ha|]. split; [exact Hq|]. split; [exact Hl|]. split; [exact Hr|].
  split; [done|].
  exists (LogWarn "Closing connections" :: es). rewrite Ht. cbn [trace w0 emit].
  rewrite <- app_assoc. split; [done|].
  change (LogWarn "Closing connections" :: es)
    with ([LogWarn "Closing connections"] ++ es).
  rewrite closingWarns_app, Hc. done.
Qed.

Lemma shutdownHandler_not_needed w :
  needToShutdown w = false -> (shutdownHandler w).2 = w.
Proof. intros Hneed. unfold shutdownHandler. now rewrite Hneed. Qed.

Lemma runHook_frame h w :
  isShutdownHook h = false -> hookFrame w (runHook h w).
Proof.
  destruct h; cbn [isShutdownHook runHook]; intros Hh; try discriminate.
  - frame_crush.
  - apply hookFrame_eventCallback.
  - apply hookFrame_handleJobsInQueues.
  - unfold loopFinishCondition. destruct (allClosed _); frame_crush.
Qed.

(** One hook: what it keeps, and whether it runs [closeAllConns]. *)
Lemma runHook_step h w :
  let w' := runHook h w in
  socketAddresses w' ⊆ socketAddresses w /\
  (connQueue w' = None <-> connQueue w = None) /\
  workerLocalAddr w' = workerLocalAddr w /\
  shutdownRequested w' = shutdownRequested w /\
  (shutdownInProgress w = true -> shutdownInProgress w' = true) /\
  (exists es, trace w' = trace w ++ es) /\
  closingWarns (trace w') =
    (closingWarns (trace w)
     + (if needToShutdown w && isShutdownHook h then 1 else 0))%nat /\
  needToShutdown w' = needToShutdown w && negb (isShutdownHook h).
Proof.
  cbv zeta. destruct (isShutdownHook h) eqn:Hh.
  - destruct h; try discriminate. cbn [runHook].
    destruct (needToShutdown w) eqn:Hneed.
    + destruct (shutdownHandler_needed w Hneed) as (Ha & Hq & Hl & Hr & Hp & es & Ht & Hc).
      split; [exact Ha|]. split; [exact Hq|]. split; [exact Hl|]. split; [exact Hr|].
      split; [done|]. split; [eauto|].
      split; [rewrite Ht, closingWarns_app, Hc; done|].
      unfold needToShutdown. now rewrite Hp, andb_false_r.
    + rewrite (shutdownHandler_not_needed w Hneed), Hneed.
      split; [done|]. split; [done|]. split; [done|]. split; [done|].
      split; [done|]. split; [exists []; now rewrite app_nil_r|].
      split; [cbn; lia|done].
  - destruct (runHook_frame h w Hh) as [Ha Hq Hl Hr Hp (es & Ht & Hc)].
    split; [exact Ha|]. split; [exact Hq|]. split; [exact Hl|]. split; [exact Hr|].
    split; [now rewrite Hp|]. split; [eauto|].
    split; [rewrite Ht, closingWarns_app, Hc, andb_false_r; lia|].
    unfold needToShutdown. now rewrite Hr, Hp, andb_true_r.
Qed.

(** Over a run the address map does not grow and the queue neither
    appears nor disappears. *)
Lemma runHooks_addrs_queue hs w :
  socketAddresses (runHooks hs w) ⊆ socketAddresses w /\
  (connQueue (runHooks hs w) = None <-> connQueue w = None).
Proof.
  revert w. induction hs as [|h hs IH]; intros w; [done|].
  cbn [runHooks fold_left]. fold (runHooks hs (runHook h w)).
  destruct (runHook_step h w) as (Ha1 & Hq1 & _).
  destruct (IH (runHook h w)) as (Ha2 & Hq2).
  split; [now transitivity (socketAddresses (runHook h w))|tauto].
Qed.

End FrameFacts.

(** X8. Whatever sequence of hooks the looper runs, the worker only
    consumes address-map entries and never stores one; the fallback queue
    neither appears nor disappears; the local address and the shutdown
    request are not changed; shutdown, once in progress, stays in progress;
    and the trace only grows at its end. *)
Theorem runHooks_keep {L : TagLayout} {C : Collaborators}
    (hs : list hook) (w : consumerWorker) :
  let w' := runHooks hs w in
  socketAddresses w' ⊆ socketAddresses w /\
  (connQueue w' = None <-> connQueue w = None) /\
  workerLocalAddr w' = workerLocalAddr w /\
  shutdownRequested w' = shutdownRequested w /\
  (shutdownInProgress w = true -> shutdownInProgress w' = true) /\
  exists es, trace w' = trace w ++ es.
Proof.
  cbv zeta. revert w. induction hs as [|h hs IH]; intros w.
  - cbn. split; [done|]. split; [done|]. split; [done|]. split; [done|].
    split; [done|]. exists []. now rewrite app_nil_r.
  - cbn [runHooks fold_left]. fold (runHooks hs (runHook h w)).
    destruct (runHook_step h w) as (Ha1 & Hq1 & Hl1 & Hr1 & Hp1 & (es1 & Ht1) & _).
    destruct (IH (runHook h w)) as (Ha2 & Hq2 & Hl2 & Hr2 & Hp2 & (es2 & Ht2)).
    split; [now transitivity (socketAddresses (runHook h w))|].
    split; [tauto|]. split; [congruence|]. split; [congruence|].
    split; [tauto|]. exists (es1 ++ es2). now rewrite Ht2, Ht1, app_assoc.
Qed.

(** X9. Over any run of the hooks [closeAllConns] runs at most once: its
    opening warning is logged once if shutdown was needed at the start of
    the run and the shutdown hook is among the hooks run, and not at all
    otherwise.  After a run that contains the shutdown hook no shutdown is
    needed any more. *)
Theorem closeAllConns_at_most_once {L : TagLayout} {C : Collaborators}
    (hs : list hook) (w : consumerWorker) :
  closingWarns (trace (runHooks hs w)) =
    (closingWarns (trace w)
     + (if needToShutdown w && existsb isShutdownHook hs then 1 else 0))%nat /\
  needToShutdown (runHooks hs w) = needToShutdown w && negb (existsb isShutdownHook hs).
Proof.
  revert w. induction hs as [|h hs IH]; intros w.
  - cbn. rewrite !andb_false_r, andb_true_r. split; [lia|done].
  - cbn [runHooks fold_left existsb]. fold (runHooks hs (runHook h w)).
    destruct (runHook_step h w) as (_ & _ & _ & _ & _ & _ & Hc1 & Hn1).
    destruct (IH (runHook h w)) as (Hc2 & Hn2).
    rewrite Hc2, Hn2, Hc1, Hn1.
    destruct (needToShutdown w), (isShutdownHook h), (existsb isShutdownHook hs);
      cbn; split; try done; lia.
Qed.

(** X10. A worker built by [newConsumerWorker] tracks nothing and holds no
    address.  Built for a kernel with ring messaging it has no fallback
    queue, and after any run of the hooks [addConnToQueue] still fails with
    the queue-is-nil error and changes nothing; built for a kernel without,
    [addConnToQueue] succeeds after any run and puts the descriptor at the
    tail of the queue.  When the ring cannot be created the constructor
    returns the ring's error wrapped and no worker. *)
Theorem newConsumerWorker_queue {L : TagLayout} {C : Collaborators}
    (created : error + Ring) (localAddr : netAddr) (features : supportedFeatures)
    (w : consumerWorker) (hs : list hook) (d : Z) :
  newConsumerWorker created localAddr features = inr w ->
  let w' := runHooks hs w in
  connectionManager w = ∅ /\ socketAddresses w = ∅ /\ trace w = [] /\
  socketAddresses w' = ∅ /\
  (ringsMessaging features = true ->
     addConnToQueue d w' = (Some ErrConnectionQueueIsNil, w')) /\
  (ringsMessaging features = false ->
     exists q, connQueue w' = Some q /\
               addConnToQueue d w' = (None, setQueue (Some (q ++ [d])) w')) /\
  (forall e, newConsumerWorker (inl e) localAddr features
             = inl (Wrapped "creating ring error" e)).
Proof.
  unfold newConsumerWorker. destruct created as [e|r]; [intros [=]|intros [= <-]].
  cbv zeta.
  match goal with |- context [runHooks hs ?w0] => set (w := w0) end.
  destruct (runHooks_addrs_queue hs w) as (Ha & Hq).
  split; [done|]. split; [done|]. split; [done|].
  split.
  { apply map_empty. intros i.
    destruct (socketAddresses (runHooks hs w) !! i) eqn:Hi; [|done].
    pose proof (lookup_weaken _ _ _ _ Hi Ha) as Hw. cbn in Hw.
    now rewrite lookup_empty in Hw. }
  split.
  - intros Hf. unfold addConnToQueue.
    assert (Hn : connQueue (runHooks hs w) = None)
      by (apply Hq; cbn; now rewrite Hf).
    now rewrite Hn.
  - split; [|done]. intros Hf. unfold addConnToQueue.
    destruct (connQueue (runHooks hs w)) as [q|] eqn:Hcq.
    + exists q. done.
    + pose proof (proj1 Hq eq_refl) as Hnil. cbn in Hnil.
      rewrite Hf in Hnil. done.
Qed.

Lemma newConsumerWorker_queue_witness :
  let features := mkFeatures true in
  let w := mkWorker ∅ ∅ None None (mkRing [] 8) false false [] in
  let hs := [HookPrepare; HookShutdown; HookEvent (mkCQE 5 0); HookFinisher] in
  newConsumerWorker (inr (mkRing [] 8)) None features = inr w /\
  addConnToQueue 7 (@runHooks sampleLayout sampleCollaborators hs w) =
    (Some ErrConnectionQueueIsNil, @runHooks sampleLayout sampleCollaborators hs w).
Proof.
  intros features w hs.
  assert (H : newConsumerWorker (inr (mkRing [] 8)) None features = inr w) by reflexivity.
  destruct (@newConsumerWorker_queue sampleLayout sampleCollaborators
              _ None features w hs 7 H) as (_ & _ & _ & _ & Ht & _).
  split; [exact H|exact (Ht eq_refl)].
Defined.

(** ** Consumer worker: what shutdown does to the registry *)

Section CloseAllFacts.
Context {L : TagLayout} {C : Collaborators}.

Lemma take_keys_notin (l : list (Z * connection)) (k : Z) (n : nat) :
  k ∉ l.*1 -> k ∉ (prod_map id (setState connClose) <$> take n l).*1.
Proof.
  intros Hk Hin. apply Hk.
  apply list_elem_of_fmap in Hin as ([k' c'] & -> & Hin).
  apply list_elem_of_fmap in Hin as ([k'' c''] & [= -> ->] & Hin).
  apply list_elem_of_fmap. exists (k'', c''). split; [done|].
  exact (subseteq_take n l _ Hin).
Qed.

(** The registry after the iteration of [closeAllConns]: the connections
    that got a close entry are in the closing state, the others are as they
    were. *)
Lemma closeAll_fold_registry (l : list (Z * connection)) (w : consumerWorker) :
  NoDup l.*1 ->
  Forall (fun kc => fd kc.2 <> -1) l ->
  connectionManager
    (fold_left (fun w kc => if fd kc.2 =? -1 then w else (closeOne kc.1 kc.2 w).2) l w)
  = list_to_map (prod_map id (setState connClose) <$> take (freeEntries (ring w)) l)
      ∪ connectionManager w.
Proof.
  revert w. induction l as [|[k c] l IH]; intros w Hnd Hall; cbn [fold_left].
  - rewrite take_nil. cbn. now rewrite (left_id_L ∅ (∪)).
  - cbn [fmap list_fmap fst] in Hnd. apply NoDup_cons in Hnd as [Hk Hnd].
    inversion Hall as [|? ? Hfd Hall']; subst. cbn [fst snd] in *.
    destruct (Z.eqb_spec (fd c) (-1)) as [|_]; [done|].
    destruct (Nat.lt_ge_cases (length (sq (ring w))) (sqEntries (ring w))) as [Hlt|Hge].
    + rewrite closeOne_free by done. cbn [snd]. rewrite IH by done.
      unfold freeEntries. cbn. rewrite length_app. cbn [length].
      replace (sqEntries (ring w) - length (sq (ring w)))%nat
        with (S (sqEntries (ring w) - (length (sq (ring w)) + 1)))%nat by lia.
      cbn [take fmap list_fmap prod_map list_to_map foldr fst snd id].
      rewrite <- insert_union_l, <- insert_union_r; [done|].
      apply not_elem_of_list_to_map_1. now apply take_keys_notin.
    + rewrite closeOne_full by done. cbn [snd]. rewrite IH by done.
      unfold freeEntries. cbn.
      now replace (sqEntries (ring w) - length (sq (ring w)))%nat with 0%nat by lia.
Qed.

Lemma closeAllConns_registry_eq (w : consumerWorker) :
  map_Forall (fun _ c => fd c <> -1) (connectionManager w) ->
  connectionManager (closeAllConns w)
  = list_to_map (prod_map id (setState connClose)
                   <$> take (freeEntries (ring w)) (map_to_list (connectionManager w)))
      ∪ connectionManager w.
Proof.
  intros Hfd. unfold closeAllConns, connectionManager_close.
  rewrite closeAll_fold_registry; [done| |].
  - apply NoDup_fst_map_to_list.
  - apply Forall_forall. intros [k c] Hin. cbn.
    apply elem_of_map_to_list in Hin. exact (Hfd _ _ Hin).
Qed.

Lemma closeAllConns_all_closing (w : consumerWorker) :
  map_Forall (fun _ c => fd c <> -1) (connectionManager w) ->
  (size (connectionManager w) <= freeEntries (ring w))%nat ->
  connectionManager (closeAllConns w) = setState connClose <$> connectionManager w.
Proof.
  intros Hfd Hroom. rewrite (closeAllConns_registry_eq w Hfd).
  rewrite take_ge by (rewrite length_map_to_list; lia).
  rewrite list_to_map_fmap, list_to_map_to_list.
  apply map_eq. intros k. rewrite lookup_union, lookup_fmap.
  destruct (connectionManager w !! k); done.
Qed.

End CloseAllFacts.

(** X11. [closeAllConns] registers and removes no connection and keeps
    the submission queue within its capacity.  The tracked connections that
    got a close entry (the first [freeEntries] of the enumeration) are in
    the closing state afterwards, with their other fields unchanged; every
    other connection is exactly as it was.  When the queue has room for all
    of them, every tracked connection ends in the closing state. *)
Theorem closeAllConns_registry {L : TagLayout} {C : Collaborators}
    (w : consumerWorker) :
  map_Forall (fun _ c => fd c <> -1) (connectionManager w) ->
  let tracked := map_to_list (connectionManager w) in
  let free := freeEntries (ring w) in
  let w' := closeAllConns w in
  dom (connectionManager w') = dom (connectionManager w) /\
  (forall k c, (k, c) ∈ take free tracked ->
     connectionManager w' !! k = Some (setState connClose c)) /\
  (forall k c, connectionManager w !! k = Some c -> (k, c) ∉ take free tracked ->
     connectionManager w' !! k = Some c) /\
  ((length (sq (ring w)) <= sqEntries (ring w))%nat ->
   (length (sq (ring w')) <= sqEntries (ring w'))%nat) /\
  ((size (connectionManager w) <= free)%nat ->
   connectionManager w' = setState connClose <$> connectionManager w).
Proof.
  intros Hfd tracked free w'. subst w'.
  pose proof (closeAllConns_registry_eq w Hfd) as Hreg. fold tracked free in Hreg.
  set (M := list_to_map (prod_map id (setState connClose) <$> take free tracked)
              : gmap Z connection) in *.
  assert (Hnd : NoDup (prod_map id (setState connClose) <$> take free tracked).*1).
  { rewrite <- list_fmap_compose.
    assert (Heq : (fst ∘ prod_map id (setState connClose)) <$> take free tracked
                  = (take free tracked).*1)
      by (apply list_fmap_ext; intros ? [] ?; done).
    rewrite Heq, fmap_take.
    apply (sublist_NoDup _ _ (NoDup_fst_map_to_list (connectionManager w))),
      sublist_take. }
  assert (HM : forall k x, M !! k = Some x ->
             exists c, x = setState connClose c /\ (k, c) ∈ take free tracked).
  { intros k x Hx. apply elem_of_list_to_map_2 in Hx.
    apply list_elem_of_fmap in Hx as ([k' c] & [= -> ->] & Hin). eauto. }
  assert (Htr : forall k c, (k, c) ∈ take free tracked -> connectionManager w !! k = Some c).
  { intros k c Hin. apply elem_of_map_to_list.
    exact (subseteq_take free tracked _ Hin). }
  split.
  { apply set_eq. intros k. rewrite !elem_of_dom, Hreg, lookup_union_is_Some.
    split; [|tauto]. intros [[x Hx]|H]; [|done].
    destruct (HM _ _ Hx) as (c & _ & Hin). rewrite (Htr _ _ Hin). eauto. }
  split.
  { intros k c Hin. rewrite Hreg. apply lookup_union_Some_l.
    apply elem_of_list_to_map_1; [exact Hnd|].
    apply list_elem_of_fmap. exists (k, c). done. }
  split.
  { intros k c Hk Hnot. rewrite Hreg, lookup_union_r; [done|].
    destruct (M !! k) as [x|] eqn:Hx; [|done].
    destruct (HM _ _ Hx) as (c' & _ & Hin).
    pose proof (Htr _ _ Hin) as Hk'. assert (c' = c) by congruence. subst c'. done. }
  split.
  { intros Hcap. destruct (closeAllConns_spec w Hfd) as (Hsq & Hn & _).
    rewrite Hsq, Hn, length_app, length_map, length_take. unfold freeEntries. lia. }
  intros Hroom. now apply closeAllConns_all_closing.
Qed.

Lemma closeAllConns_registry_witness :
  let w := mkWorker {[ 3 := sampleConn 3 connRead; 4 := sampleConn 4 connWrite ]}
             ∅ None None (mkRing [] 8) true false [] in
  connectionManager (@closeAllConns sampleLayout w) =
    {[ 3 := sampleConn 3 connClose; 4 := sampleConn 4 connClose ]}.
Proof.
  intros w.
  assert (H1 : map_Forall (fun _ c => fd c <> -1) (connectionManager w))
    by (apply (bool_decide_unpack _); vm_compute; exact I).
  destruct (@closeAllConns_registry sampleLayout sampleCollaborators w H1)
    as (_ & _ & _ & _ & Hall).
  rewrite Hall by (vm_compute; lia). reflexivity.
Defined.

(** ** Consumer worker: shutdown to completion *)

Section ConvergenceFacts.
Context {L : TagLayout} {C : Collaborators}.

Lemma int_of_uint64_fd (d : Z) : layout_ok -> fdFits d -> int_of_uint64 d = d.
Proof.
  intros HL [Hd0 Hd]. pose proof (layout_ok_inv HL) as HI.
  unfold int_of_uint64.
  assert (2 ^ fdBits <= 2 ^ 63) by (apply Z.pow_le_mono_r; lia).
  destruct (Z.ltb_spec d (2 ^ 63)); [done|lia].
Qed.

Lemma setConns_id w : setConns (connectionManager w) w = w.
Proof. now destruct w. Qed.

(** The completion of a close operation for descriptor [k]. *)
Lemma closeCompletion_event (k res : Z) (w : consumerWorker) :
  layout_ok -> fdFits k -> syscall_Stderr <= k ->
  (forall c, connectionManager w !! k = Some c -> state c = connClose) ->
  let cqe := mkCQE (composeTag closeConnFlag k) res in
  affectedKey cqe = k /\
  eventCallback cqe w = (None, setConns (delete k (connectionManager w)) w).
Proof.
  intros HL Hk Hge Hst cqe. pose proof (layout_ok_inv HL) as HI.
  assert (Hcl : In closeBit flagBits) by (unfold flagBits; cbn; tauto).
  assert (Had : In addConnBit flagBits) by (unfold flagBits; cbn; tauto).
  assert (Hadd : hasFlag (UserData cqe) addConnFlag = false).
  { subst cqe. unfold closeConnFlag, addConnFlag. cbn [UserData].
    rewrite hasFlag_composeTag by done. apply bool_decide_eq_false. lia. }
  assert (Hclose : hasFlag (UserData cqe) closeConnFlag = true).
  { subst cqe. unfold closeConnFlag. cbn [UserData].
    rewrite hasFlag_composeTag by done. now apply bool_decide_eq_true. }
  assert (Hmask : int_of_uint64 (maskFlags (UserData cqe)) = k).
  { subst cqe. unfold closeConnFlag. cbn [UserData].
    rewrite maskFlags_composeTag by done. now apply int_of_uint64_fd. }
  split; [unfold affectedKey; now rewrite Hadd|].
  destruct (connectionManager w !! k) as [c|] eqn:Hc.
  - rewrite (eventCallback_tracked cqe w c) by (now rewrite Hmask).
    rewrite (dispatchEvent_tracked_conn cqe w c); [|done|lia|now rewrite Hmask].
    rewrite Hmask, handleConn_closing_closeFlag by eauto. done.
  - rewrite eventCallback_untracked by (now rewrite Hmask).
    now rewrite delete_id, setConns_id.
Qed.

(** Close completions, in any order, remove exactly the connections they
    are about and do nothing else. *)
Lemma closeCompletions_run (cqes : list CompletionQueueEvent) (w : consumerWorker) :
  layout_ok ->
  (forall k c, connectionManager w !! k = Some c -> state c = connClose) ->
  Forall isCloseCompletion cqes ->
  exists m',
    runHooks (HookEvent <$> cqes) w = setConns m' w /\
    forall k, m' !! k =
      if decide (k ∈ affectedKey <$> cqes) then None else connectionManager w !! k.
Proof.
  intros HL. revert w. induction cqes as [|cqe cqes IH]; intros w Hst Hall.
  - exists (connectionManager w). cbn. rewrite setConns_id. split; [done|].
    intros k. rewrite decide_False; [done|]. apply not_elem_of_nil.
  - inversion Hall as [|? ? (k0 & Htag & Hfit & Hge) Hall']; subst.
    cbn [fmap list_fmap runHooks fold_left runHook].
    fold (runHooks (HookEvent <$> cqes) (eventCallback cqe w).2).
    assert (Hcqe : cqe = mkCQE (composeTag closeConnFlag k0) (Res cqe))
      by (destruct cqe; cbn in *; congruence).
    destruct (closeCompletion_event k0 (Res cqe) w HL Hfit Hge) as [Hkey Hev].
    { intros c Hc. eauto. }
    cbv zeta in Hkey, Hev. rewrite <- Hcqe in Hkey, Hev. rewrite Hev. cbn [snd].
    destruct (IH (setConns (delete k0 (connectionManager w)) w)) as (m' & Hrun & Hm').
    { intros k c Hc. cbn in Hc. apply lookup_delete_Some in Hc as [_ Hc]. eauto. }
    { exact Hall'. }
    exists m'. split; [rewrite Hrun; now destruct w|].
    intros k. rewrite Hm'. cbn [connectionManager setConns]. rewrite Hkey.
    destruct (decide (k ∈ affectedKey <$> cqes)) as [Hin|Hnin].
    + rewrite decide_True by (apply elem_of_cons; tauto). done.
    + destruct (decide (k = k0)) as [->|Hne].
      * rewrite decide_True by (apply elem_of_cons; tauto). apply lookup_delete_eq.
      * rewrite decide_False by (rewrite elem_of_cons; tauto).
        now apply lookup_delete_ne.
Qed.

End ConvergenceFacts.

(** X12. Graceful shutdown runs to completion.  Take a worker whose
    registry is keyed by descriptor, with descriptors that fit the tag and
    are no standard stream, and whose submission queue has room for one
    entry per connection.  When the shutdown hook fires, one close entry per
    connection is submitted, and while connections remain the finish
    condition does not hold.  Once the completions of those entries have
    been processed, in whatever order and with whatever result values, the
    registry is empty, nothing was logged or submitted on the way, and the
    finish condition holds and signals completion. *)
Theorem graceful_shutdown_converges {L : TagLayout} {C : Collaborators}
    (w : consumerWorker) (res : SubmissionQueueEntry -> Z)
    (order : list SubmissionQueueEntry) :
  layout_ok ->
  map_Forall (fun k c => fd c = k /\ syscall_Stderr <= k /\ fdFits k)
             (connectionManager w) ->
  needToShutdown w = true ->
  (size (connectionManager w) <= freeEntries (ring w))%nat ->
  let w1 := (shutdownHandler w).2 in
  let submitted := drop (length (sq (ring w))) (sq (ring w1)) in
  order ≡ₚ submitted ->
  let w2 := runHooks (HookEvent <$> ((fun e => completionOf (res e) e) <$> order)) w1 in
  length submitted = size (connectionManager w) /\
  (connectionManager w <> ∅ -> loopFinishCondition w1 = (false, w1)) /\
  connectionManager w2 = ∅ /\
  trace w2 = trace w1 /\
  ring w2 = ring w1 /\
  loopFinishCondition w2 = (true, emit NotifyFinish w2).
Proof.
  intros HL Hvalid Hneed Hroom w1 submitted Hperm w2.
  assert (Hfd : map_Forall (fun _ c => fd c <> -1) (connectionManager w)).
  { intros k c Hk. destruct (Hvalid k c Hk) as (-> & Hge & _).
    unfold syscall_Stderr in Hge. lia. }
  assert (Hw1 : w1 = markShutdownInProgress (closeAllConns w)).
  { subst w1. unfold shutdownHandler. now rewrite Hneed. }
  assert (Hreg1 : connectionManager w1 = setState connClose <$> connectionManager w).
  { rewrite Hw1. cbn [markShutdownInProgress connectionManager].
    now apply closeAllConns_all_closing. }
  assert (Hsub : submitted = map closeEntry (map_to_list (connectionManager w)).*2).
  { subst submitted. rewrite Hw1. cbn [markShutdownInProgress ring].
    destruct (closeAllConns_spec w Hfd) as (Hsq & _). rewrite Hsq, drop_app_length.
    now rewrite take_ge by (rewrite length_fmap, length_map_to_list; lia). }
  assert (Hentry : forall e, e ∈ submitted ->
            exists k c, connectionManager w !! k = Some c /\ e = closeEntry c /\ fd c = k /\
                        syscall_Stderr <= k /\ fdFits k).
  { intros e He. rewrite Hsub in He.
    apply list_elem_of_fmap in He as (c & -> & Hc).
    apply list_elem_of_fmap in Hc as ([k c'] & -> & Hin). cbn.
    apply elem_of_map_to_list in Hin. destruct (Hvalid k c' Hin) as (Hk & Hge & Hfit).
    eauto 10. }
  assert (Hkey : forall k c r, fd c = k -> syscall_Stderr <= k -> fdFits k ->
            affectedKey (completionOf r (closeEntry c)) = k).
  { intros k c r Hk Hge Hfit. unfold completionOf, closeEntry. cbn [sqeUserData].
    rewrite Hk.
    destruct (closeCompletion_event k r (setConns ∅ w) HL Hfit Hge) as [Hkey _];
      [intros c0; cbn; now rewrite lookup_empty|exact Hkey]. }
  destruct (closeCompletions_run ((fun e => completionOf (res e) e) <$> order) w1 HL)
    as (m' & Hrun & Hm').
  { intros k c. rewrite Hreg1, lookup_fmap_Some. intros (c0 & <- & _). done. }
  { apply Forall_forall. intros cqe Hin.
    apply list_elem_of_fmap in Hin as (e & -> & He).
    rewrite Hperm in He. destruct (Hentry e He) as (k & c & _ & -> & Hk & Hge & Hfit).
    exists k. unfold completionOf, closeEntry. cbn. rewrite Hk. done. }
  assert (Hempty : m' = ∅).
  { apply map_empty. intros k. rewrite Hm'.
    destruct (decide (k ∈ affectedKey <$> ((fun e => completionOf (res e) e) <$> order)))
      as [_|Hnin]; [done|].
    rewrite Hreg1, lookup_fmap.
    destruct (connectionManager w !! k) as [c|] eqn:Hk; [|done].
    exfalso. apply Hnin. destruct (Hvalid k c Hk) as (Hfdk & Hge & Hfit).
    apply list_elem_of_fmap. exists (completionOf (res (closeEntry c)) (closeEntry c)).
    split; [symmetry; now apply Hkey|].
    apply list_elem_of_fmap. exists (closeEntry c). split; [done|].
    rewrite Hperm, Hsub. apply list_elem_of_fmap. exists c. split; [done|].
    apply list_elem_of_fmap. exists (k, c). split; [done|].
    now apply elem_of_map_to_list. }
  assert (Hw2 : w2 = setConns ∅ w1) by (subst w2; now rewrite Hrun, Hempty).
  split; [rewrite Hsub, length_map, length_fmap; apply length_map_to_list|].
  split.
  { intros Hne. apply loopFinishCondition_spec. rewrite Hreg1.
    intros Hf. apply fmap_empty_inv in Hf. done. }
  rewrite Hw2. split; [done|]. split; [done|]. split; [done|].
  now apply loopFinishCondition_spec.
Qed.

Lemma graceful_shutdown_converges_witness :
  let w := mkWorker {[ 3 := sampleConn 3 connRead; 4 := sampleConn 4 connWrite ]}
             ∅ None None (mkRing [] 8) true false [] in
  let w1 := (@shutdownHandler sampleLayout w).2 in
  let order := reverse (sq (ring w1)) in
  let w2 := @runHooks sampleLayout sampleCollaborators
              (HookEvent <$> ((fun e => completionOf 0 e) <$> order)) w1 in
  length (sq (ring w1)) = 2%nat /\
  connectionManager w2 = ∅ /\
  loopFinishCondition w2 = (true, emit NotifyFinish w2).
Proof.
  intros w w1 order w2.
  assert (H1 : @layout_ok sampleLayout) by reflexivity.
  assert (H2 : map_Forall (fun k c => fd c = k /\ syscall_Stderr <= k /\ @fdFits sampleLayout k)
                 (connectionManager w)).
  { intros k c Hk. subst w. cbn [connectionManager] in Hk.
    apply lookup_insert_Some in Hk as [[<- <-]|[_ Hk]].
    - cbn. unfold syscall_Stderr, fdFits. cbn. lia.
    - apply lookup_singleton_Some in Hk as [<- <-].
      cbn. unfold syscall_Stderr, fdFits. cbn. lia. }
  assert (H3 : needToShutdown w = true) by reflexivity.
  assert (H4 : (size (connectionManager w) <= freeEntries (ring w))%nat)
    by (vm_compute; lia).
  assert (H5 : order ≡ₚ drop (length (sq (ring w))) (sq (ring w1)))
    by (subst order; cbn [drop length sq ring w]; apply reverse_Permutation).
  destruct (@graceful_shutdown_converges sampleLayout sampleCollaborators
              w (fun _ => 0) order H1 H2 H3 H4 H5) as (Hlen & _ & Hm & _ & _ & Hfin).
  split; [exact Hlen|]. split; [exact Hm|exact Hfin].
Defined.
